(** * Traffic-Sim-360: a shallow embedding of [project.py]

    The program simulates three intersections.  A [TrafficController] owns
    three [TrafficLight] objects and, in [manage_traffic], draws a random
    vehicle count per intersection and switches the light accordingly.  A
    [TrafficSystem] owns three [Sensor]s and a controller of its own and
    pushes sensor readings over a local socket; a [Server] owns another
    controller and reacts to what it receives.

    Modelling choices.
    - Objects that are shared and mutated ([TrafficLight]) live in a store
      ([heap]) and are handled through references; a method takes [self] as
      a reference.
    - Everything the code does to the outside is a field of [World]: the
      files it appends to, the lines it prints, the clock, the random source,
      the accepted sockets.
    - A method is a computation in the monad [M]: it takes a world and either
      returns a value and a world, raises a Python exception, or runs out of
      the fuel given to a [while] loop.
    - What other processes and threads do (whether [bind] succeeds, which
      connections arrive, how often a loop sees the stop event unset) is an
      explicit script passed to the actor that observes it. *)

From Stdlib Require Import ZArith Lia.
From stdpp Require Import gmap strings list.

Local Open Scope Z_scope.

(** ** Constants *)

Definition MAX_VEHICLES : Z := 5.
Definition RED_LIGHT_DURATION : Z := 10.
Definition GREEN_LIGHT_DURATION : Z := 15.
Definition YELLOW_LIGHT_DURATION : Z := 5.
Definition LOG_FILE : string := "traffic_data_log.json".

(** ** Data *)

(** The three strings held by [TrafficLight.state]. *)
Inductive LightState := RED | YELLOW | GREEN.

Global Instance LightState_eq_dec : EqDecision LightState.
Proof. solve_decision. Defined.

(** Attributes of a [TrafficLight] object. *)
Record TrafficLight := mkTrafficLight {
  state : LightState;
  name : string;
  green_duration : Z;
  red_duration : Z;
  yellow_duration : Z;
  vehicle_count_history : list Z
}.

(** The dictionary [log_entry] of [log_traffic_data], one line of the log. *)
Record LogEntry := mkLogEntry {
  log_intersection : string;
  log_state : LightState;
  log_timestamp : Z;
  log_vehicle_count : nat
}.

(** Attributes of a [Sensor] object. *)
Record Sensor := mkSensor {
  intersection_name : string;
  vehicle_count : Z
}.

(** The dictionary [data] returned by [generate_sensor_data]. *)
Record SensorData := mkSensorData {
  data_intersection : string;
  data_vehicle_count : Z
}.

(** A decoded JSON document, as [json.loads] returns it. *)
#[local] Set Warnings "-register-all".
Inductive json :=
| JNull
| JBool (b : bool)
| JNum (z : Z)
| JStr (s : string)
| JList (items : list json)
| JDict (fields : list (string * json)).
#[local] Set Warnings "register-all".

(** The Python exceptions the program can meet.  All of them are instances
    of [Exception]; [socket_timeout] is the one caught by its own clause. *)
Inductive exn :=
| socket_timeout
| OSError
| JSONDecodeError
| KeyError (key : string)
| TypeError
| UnboundLocalError (var : string).

(** A line written by [print]. *)
Inductive Line :=
| Line_now (nm : string) (s : LightState)
| Line_logged (e : LogEntry)
| Line_checking (nm : string) (v : Z)
| Line_iteration (done total : Z)
| Line_send_error (e : exn)
| Line_listening
| Line_start_error (e : exn)
| Line_received (nm count : json)
| Line_request_error (e : exn)
| Line_ended.

Abbreviation loc := nat (only parsing).
Abbreviation conn := nat (only parsing).

(** ** The world *)

Record World := mkWorld {
  heap : gmap loc TrafficLight;      (* the TrafficLight objects *)
  next_loc : loc;                    (* next fresh reference *)
  files : gmap string (list LogEntry); (* file name -> lines appended *)
  console : list Line;               (* standard output, oldest first *)
  clock : Z;                         (* seconds, read by datetime.now() *)
  rand_src : nat -> Z;               (* entropy behind the random module *)
  rand_pos : nat;                    (* how much of it has been used *)
  open_sockets : gset conn;            (* sockets created and not yet closed *)
  next_conn : conn;                  (* next fresh socket *)
  client_socket : option conn        (* local variable of start_server *)
}.

Definition set_heap (h : gmap loc TrafficLight) (w : World) : World :=
  mkWorld h (next_loc w) (files w) (console w) (clock w) (rand_src w)
          (rand_pos w) (open_sockets w) (next_conn w) (client_socket w).

Definition set_next_loc (n : loc) (w : World) : World :=
  mkWorld (heap w) n (files w) (console w) (clock w) (rand_src w)
          (rand_pos w) (open_sockets w) (next_conn w) (client_socket w).

Definition set_files (f : gmap string (list LogEntry)) (w : World) : World :=
  mkWorld (heap w) (next_loc w) f (console w) (clock w) (rand_src w)
          (rand_pos w) (open_sockets w) (next_conn w) (client_socket w).

Definition set_console (c : list Line) (w : World) : World :=
  mkWorld (heap w) (next_loc w) (files w) c (clock w) (rand_src w)
          (rand_pos w) (open_sockets w) (next_conn w) (client_socket w).

Definition set_clock (t : Z) (w : World) : World :=
  mkWorld (heap w) (next_loc w) (files w) (console w) t (rand_src w)
          (rand_pos w) (open_sockets w) (next_conn w) (client_socket w).

Definition set_rand_pos (p : nat) (w : World) : World :=
  mkWorld (heap w) (next_loc w) (files w) (console w) (clock w) (rand_src w)
          p (open_sockets w) (next_conn w) (client_socket w).

Definition set_open_sockets (s : gset conn) (w : World) : World :=
  mkWorld (heap w) (next_loc w) (files w) (console w) (clock w) (rand_src w)
          (rand_pos w) s (next_conn w) (client_socket w).

Definition set_next_conn (c : conn) (w : World) : World :=
  mkWorld (heap w) (next_loc w) (files w) (console w) (clock w) (rand_src w)
          (rand_pos w) (open_sockets w) c (client_socket w).

Definition set_client_socket (c : option conn) (w : World) : World :=
  mkWorld (heap w) (next_loc w) (files w) (console w) (clock w) (rand_src w)
          (rand_pos w) (open_sockets w) (next_conn w) c.

(** ** The monad of methods *)

Inductive Outcome (A : Type) :=
| Ok (a : A) (w : World)
| Raised (e : exn) (w : World)
| OutOfFuel.
Arguments Ok {A}.
Arguments Raised {A}.
Arguments OutOfFuel {A}.

Definition M (A : Type) : Type := World -> Outcome A.

Definition ret {A} (a : A) : M A := fun w => Ok a w.

Definition bind {A B} (m : M A) (k : A -> M B) : M B :=
  fun w =>
    match m w with
    | Ok a w' => k a w'
    | Raised e w' => Raised e w'
    | OutOfFuel => OutOfFuel
    end.

Definition raise {A} (e : exn) : M A := fun w => Raised e w.

Declare Scope prog_scope.
Delimit Scope prog_scope with prog.
Bind Scope prog_scope with M.
Notation "x <~ c1 ; c2" := (bind c1 (fun x => c2))
  (at level 20, c1 at level 100, c2 at level 200, only parsing) : prog_scope.
Notation "c1 ;; c2" := (bind c1 (fun _ => c2))
  (at level 100, c2 at level 200, only parsing, right associativity)
  : prog_scope.
Local Open Scope prog_scope.

(** [try: body except Exception as e: handler(e)]. *)
Definition try_except {A} (body : M A) (handler : exn -> M A) : M A :=
  fun w =>
    match body w with
    | Ok a w' => Ok a w'
    | Raised e w' => handler e w'
    | OutOfFuel => OutOfFuel
    end.

(** [try: body finally: cleanup].  The [finally] block runs on every path;
    when the body raised, the exception is raised again after the block,
    unless the block raised one of its own, which then replaces it. *)
Definition try_finally (body : M unit) (cleanup : M unit) : M unit :=
  fun w =>
    match body w with
    | Ok _ w' => cleanup w'
    | Raised e w' => bind cleanup (fun _ => raise e) w'
    | OutOfFuel => OutOfFuel
    end.

(** ** Primitives of the run-time *)

(** [print(...)]. *)
Definition print (l : Line) : M unit :=
  fun w => Ok tt (set_console (console w ++ [l]) w).

(** [datetime.now().strftime('%Y-%m-%d %H:%M:%S')]: the clock, in seconds. *)
Definition datetime_now : M Z := fun w => Ok (clock w) w.

(** [time.sleep(d)]. *)
Definition sleep (d : Z) : M unit :=
  fun w => Ok tt (set_clock (clock w + d) w).

(** [random.randint(a, b)] for [a <= b]: the next piece of entropy, brought
    into the closed range from [a] to [b]. *)
Definition randint (a b : Z) : M Z :=
  fun w =>
    Ok (a + rand_src w (rand_pos w) mod (b - a + 1))
       (set_rand_pos (S (rand_pos w)) w).

(** [with open(path, 'a') as file: json.dump(entry, file); file.write("\n")].
    Opening for append creates the file when it does not exist. *)
Definition append_line (path : string) (entry : LogEntry) : M unit :=
  fun w =>
    Ok tt (set_files (<[path := default [] (files w !! path) ++ [entry]]>
                        (files w)) w).

(** [socket.socket(...)], and the socket [accept] returns: a new socket. *)
Definition socket_new : M conn :=
  fun w =>
    Ok (next_conn w)
       (set_next_conn (S (next_conn w))
          (set_open_sockets ({[next_conn w]} ∪ open_sockets w) w)).

(** [sock.close()]; closing a closed socket does nothing. *)
Definition socket_close (sock : conn) : M unit :=
  fun w => Ok tt (set_open_sockets (open_sockets w ∖ {[sock]}) w).

(** Reading an object through its reference, and writing it back. *)
Global Instance TrafficLight_inhabited : Inhabited TrafficLight :=
  populate (mkTrafficLight RED "" 0 0 0 []).

Definition light (w : World) (self : loc) : TrafficLight := heap w !!! self.

Definition get_light (self : loc) : M TrafficLight :=
  fun w => Ok (light w self) w.

Definition put_light (self : loc) (o : TrafficLight) : M unit :=
  fun w => Ok tt (set_heap (<[self := o]> (heap w)) w).

(** Allocation of a new object. *)
Definition new_light (o : TrafficLight) : M loc :=
  fun w =>
    Ok (next_loc w)
       (set_next_loc (S (next_loc w)) (set_heap (<[next_loc w := o]> (heap w)) w)).

(** The lines of the log file so far. *)
Definition log_of (w : World) : list LogEntry :=
  default [] (files w !! LOG_FILE).

(** ** class TrafficLight *)

Definition with_state (s : LightState) (o : TrafficLight) : TrafficLight :=
  mkTrafficLight s (name o) (green_duration o) (red_duration o)
                 (yellow_duration o) (vehicle_count_history o).

Definition with_history (h : list Z) (o : TrafficLight) : TrafficLight :=
  mkTrafficLight (state o) (name o) (green_duration o) (red_duration o)
                 (yellow_duration o) h.

(** [TrafficLight.__init__]. *)
Definition TrafficLight_init (intersection_name : string) : M loc :=
  new_light (mkTrafficLight RED intersection_name GREEN_LIGHT_DURATION
                            RED_LIGHT_DURATION YELLOW_LIGHT_DURATION []).

(** [TrafficLight.log_traffic_data]. *)
Definition log_traffic_data (self : loc) : M unit :=
  timestamp <~ datetime_now;
  o <~ get_light self;
  let log_entry :=
    mkLogEntry (name o) (state o) timestamp
               (length (vehicle_count_history o)) in
  append_line LOG_FILE log_entry;;
  print (Line_logged log_entry).

(** [TrafficLight.switch_to_green]. *)
Definition switch_to_green (self : loc) : M unit :=
  o <~ get_light self;
  put_light self (with_state GREEN o);;
  print (Line_now (name o) GREEN);;
  log_traffic_data self.

(** [TrafficLight.switch_to_red]. *)
Definition switch_to_red (self : loc) : M unit :=
  o <~ get_light self;
  put_light self (with_state RED o);;
  print (Line_now (name o) RED);;
  log_traffic_data self.

(** [TrafficLight.switch_to_yellow]. *)
Definition switch_to_yellow (self : loc) : M unit :=
  o <~ get_light self;
  put_light self (with_state YELLOW o);;
  print (Line_now (name o) YELLOW);;
  log_traffic_data self.

(** [TrafficLight.update_vehicle_count]. *)
Definition update_vehicle_count (self : loc) (count : Z) : M unit :=
  o <~ get_light self;
  put_light self (with_history (vehicle_count_history o ++ [count]) o).

(** [TrafficLight.get_vehicle_count]. *)
Definition get_vehicle_count (self : loc) : M nat :=
  o <~ get_light self;
  ret (length (vehicle_count_history o)).

(** ** class TrafficController *)

Record TrafficController := mkTrafficController {
  intersections : list (string * loc);   (* a dict, in insertion order *)
  iterations : Z;
  active_intersections : gmap string bool
}.

(** [TrafficController.__init__]. *)
Definition TrafficController_init : M TrafficController :=
  l1 <~ TrafficLight_init "Intersection 1";
  l2 <~ TrafficLight_init "Intersection 2";
  l3 <~ TrafficLight_init "Intersection 3";
  ret (mkTrafficController
         [("Intersection 1", l1); ("Intersection 2", l2); ("Intersection 3", l3)]
         10 ∅).

(** The decision of [manage_traffic] (the [if]/[elif]/[else] on the count):
    switch, then hold the light for its duration. *)
Definition apply_policy (traffic_light : loc) (vehicle_count : Z) : M unit :=
  if vehicle_count >? 60 then
    switch_to_green traffic_light;;
    o <~ get_light traffic_light;
    sleep (green_duration o)
  else if vehicle_count =? 0 then
    switch_to_red traffic_light;;
    o <~ get_light traffic_light;
    sleep (red_duration o)
  else
    switch_to_yellow traffic_light;;
    o <~ get_light traffic_light;
    sleep (yellow_duration o).

(** The body of the [for] loop of [manage_traffic], for one item of
    [self.intersections.items()]. *)
Definition visit (item : string * loc) (intersection_data : gmap string Z)
  : M (gmap string Z) :=
  let '(intersection_name, traffic_light) := item in
  vehicle_count <~ randint 0 MAX_VEHICLES;
  update_vehicle_count traffic_light vehicle_count;;
  print (Line_checking intersection_name vehicle_count);;
  apply_policy traffic_light vehicle_count;;
  ret (<[intersection_name := vehicle_count]> intersection_data).

(** [for intersection_name, traffic_light in self.intersections.items()]. *)
Fixpoint for_each_intersection (items : list (string * loc))
    (intersection_data : gmap string Z) : M (gmap string Z) :=
  match items with
  | [] => ret intersection_data
  | item :: rest =>
      intersection_data' <~ visit item intersection_data;
      for_each_intersection rest intersection_data'
  end.

(** [while iteration_count < self.iterations], with the fuel of the loop. *)
Fixpoint while_iterations (fuel : nat) (self : TrafficController)
    (iteration_count : Z) (intersection_data : gmap string Z)
  : M (gmap string Z) :=
  if iteration_count <? iterations self then
    match fuel with
    | O => fun _ => OutOfFuel
    | S fuel' =>
        intersection_data' <~
          for_each_intersection (intersections self) intersection_data;
        print (Line_iteration (iteration_count + 1) (iterations self));;
        while_iterations fuel' self (iteration_count + 1) intersection_data'
    end
  else ret intersection_data.

(** [TrafficController.manage_traffic], for a given fuel. *)
Definition manage_traffic_fuel (fuel : nat) (self : TrafficController)
  : M (gmap string Z) :=
  while_iterations fuel self 0 ∅.

(** [TrafficController.manage_traffic]: the loop counts up to
    [self.iterations], which is the fuel it is given. *)
Definition manage_traffic (self : TrafficController) : M (gmap string Z) :=
  manage_traffic_fuel (Z.to_nat (iterations self)) self.


(** ** class Sensor *)

(** [Sensor.__init__]. *)
Definition Sensor_init (intersection_name : string) : Sensor :=
  mkSensor intersection_name 0.

(** [Sensor.generate_sensor_data]: the method assigns [self.vehicle_count],
    so it yields the sensor as it is afterwards next to the value returned. *)
Definition generate_sensor_data (self : Sensor) : M (SensorData * Sensor) :=
  drawn <~ randint 0 MAX_VEHICLES;
  let self' := mkSensor (intersection_name self) drawn in
  let data := mkSensorData (intersection_name self') (vehicle_count self') in
  ret (data, self').

(** ** class TrafficSystem *)

(** The dictionary [network_traffic]. *)
Record NetworkTraffic := mkNetworkTraffic {
  timestamps : list Z;
  vehicle_counts : list Z
}.

Record TrafficSystem := mkTrafficSystem {
  sensor_1 : Sensor;
  sensor_2 : Sensor;
  sensor_3 : Sensor;
  controller : TrafficController;
  system_active_intersections : gmap string bool;
  network_traffic : NetworkTraffic
}.

(** [TrafficSystem.__init__]. *)
Definition TrafficSystem_init : M TrafficSystem :=
  let sensor_1 := Sensor_init "Intersection 1" in
  let sensor_2 := Sensor_init "Intersection 2" in
  let sensor_3 := Sensor_init "Intersection 3" in
  controller <~ TrafficController_init;
  ret (mkTrafficSystem sensor_1 sensor_2 sensor_3 controller
         (<["Intersection 3" := true]>
            (<["Intersection 2" := true]> {["Intersection 1" := true]}))
         (mkNetworkTraffic [] [])).

(** What the network does with one [connect] and [send]. *)
Inductive SendResult :=
| Delivered
| Connect_fails
| Send_fails.

(** [TrafficSystem.send_data_to_server]. *)
Definition send_data_to_server (data : SensorData) (net : SendResult)
  : M unit :=
  client <~ socket_new;
  try_finally
    (try_except
       (match net with
        | Delivered => ret tt              (* connect, send *)
        | Connect_fails => raise OSError   (* connect raises *)
        | Send_fails => raise OSError      (* send raises *)
        end)
       (fun e => print (Line_send_error e)))
    (socket_close client).

(** One turn of the [while] loop of [start_sensors]. *)
Definition sensor_cycle (self : TrafficSystem)
    (net : SendResult * SendResult * SendResult) : M TrafficSystem :=
  let '(net_1, net_2, net_3) := net in
  r1 <~ generate_sensor_data (sensor_1 self);
  r2 <~ generate_sensor_data (sensor_2 self);
  r3 <~ generate_sensor_data (sensor_3 self);
  let '(data_1, sensor_1') := r1 in
  let '(data_2, sensor_2') := r2 in
  let '(data_3, sensor_3') := r3 in
  current_timestamp <~ datetime_now;
  let traffic := network_traffic self in
  let traffic := mkNetworkTraffic (timestamps traffic ++ [current_timestamp])
                                  (vehicle_counts traffic) in
  let traffic := mkNetworkTraffic (timestamps traffic)
                   (vehicle_counts traffic ++ [data_vehicle_count data_1]) in
  let traffic := mkNetworkTraffic (timestamps traffic)
                   (vehicle_counts traffic ++ [data_vehicle_count data_2]) in
  let traffic := mkNetworkTraffic (timestamps traffic)
                   (vehicle_counts traffic ++ [data_vehicle_count data_3]) in
  send_data_to_server data_1 net_1;;
  send_data_to_server data_2 net_2;;
  send_data_to_server data_3 net_3;;
  sleep 5;;
  ret (mkTrafficSystem sensor_1' sensor_2' sensor_3' (controller self)
         (system_active_intersections self) traffic).

(** [TrafficSystem.start_sensors].  The loop runs while the stop event is
    unset; [script] has one entry for each time the loop finds it unset, and
    the entry says what became of the three sends of that turn. *)
Fixpoint start_sensors (self : TrafficSystem)
    (script : list (SendResult * SendResult * SendResult)) : M TrafficSystem :=
  match script with
  | [] => ret self
  | net :: rest =>
      self' <~ sensor_cycle self net;
      start_sensors self' rest
  end.

(** ** class Server *)

Record Server := mkServer {
  traffic_controller : TrafficController
}.

(** [Server.__init__]. *)
Definition Server_init : M Server :=
  traffic_controller <~ TrafficController_init;
  ret (mkServer traffic_controller).

(** What [client_socket.recv(1024).decode()] yields on a connection, with
    what [json.loads] makes of the text ([None]: it raises). *)
Inductive Received :=
| Recv_fails
| Recv_text (data : string) (loads : option json).

(** What [server.accept()] meets, one second at most after it is called. *)
Inductive Arrival :=
| Accept_timeout
| Accept_fails
| Connection (r : Received).

(** [d[key]] on a decoded JSON document. *)
Fixpoint dict_get (key : string) (fields : list (string * json))
  : option json :=
  match fields with
  | [] => None
  | (k, v) :: rest => if decide (k = key) then Some v else dict_get key rest
  end.

Definition subscript (d : json) (key : string) : M json :=
  match d with
  | JDict fields =>
      match dict_get key fields with
      | Some v => ret v
      | None => raise (KeyError key)
      end
  | _ => raise TypeError
  end.

(** [server.accept()], with the assignment to [client_socket]. *)
Definition accept (a : Arrival) : M Received :=
  match a with
  | Accept_timeout => raise socket_timeout
  | Accept_fails => raise OSError
  | Connection r =>
      sock <~ socket_new;
      (fun w => Ok tt (set_client_socket (Some sock) w));;
      ret r
  end.

(** [client_socket.recv(1024).decode()]. *)
Definition recv (r : Received) : M string :=
  match r with
  | Recv_fails => raise OSError
  | Recv_text data _ => ret data
  end.

(** [json.loads(data)]. *)
Definition json_loads (r : Received) : M json :=
  match r with
  | Recv_text _ (Some doc) => ret doc
  | _ => raise JSONDecodeError
  end.

(** [client_socket.close()] in the [finally] block: the name is read first,
    and a local name that was never assigned raises. *)
Definition close_client_socket : M unit :=
  fun w =>
    match client_socket w with
    | Some sock => socket_close sock w
    | None => Raised (UnboundLocalError "client_socket") w
    end.

(** The body of the [while] loop of [start_server]. *)
Definition serve_once (self : Server) (a : Arrival) : M unit :=
  try_finally
    (try_except
       (r <~ accept a;
        data <~ recv r;
        if decide (data = "") then ret tt
        else
          traffic_data <~ json_loads r;
          intersection_name <~ subscript traffic_data "intersection";
          vehicle_count <~ subscript traffic_data "vehicle_count";
          print (Line_received intersection_name vehicle_count);;
          manage_traffic (traffic_controller self);;
          ret tt)
       (fun e =>
          match e with
          | socket_timeout => ret tt                 (* continue *)
          | _ => print (Line_request_error e)
          end))
    close_client_socket.

(** [while not self.stop_event.is_set()]: [arrivals] has one entry for each
    time the loop finds the event unset. *)
Fixpoint serve_loop (self : Server) (arrivals : list Arrival) : M unit :=
  match arrivals with
  | [] => ret tt
  | a :: rest => serve_once self a;; serve_loop self rest
  end.

(** [Server.start_server]; [bind_ok] says whether [bind] and [listen]
    succeed.  The frame of the call starts with [client_socket] unassigned. *)
Definition start_server (self : Server) (bind_ok : bool)
    (arrivals : list Arrival) : M unit :=
  (fun w => Ok tt (set_client_socket None w));;
  server <~ socket_new;
  listening <~
    try_except
      ((if bind_ok then ret tt else raise OSError);;
       print Line_listening;;
       ret true)
      (fun e => print (Line_start_error e);; ret false);
  if listening then
    serve_loop self arrivals;;
    socket_close server
  else ret tt.                                        (* return *)

(** [plot_traffic_light_state]: the mapping that is charted. *)
Definition traffic_light_states (items : list (string * loc)) (w : World)
  : gmap string LightState :=
  fold_left (fun m item => <[name (light w item.2) := state (light w item.2)]> m)
            items ∅.

(** * Vocabulary of the statements *)

(** A world in which nothing has happened yet, with [src] as its entropy. *)
Definition initial_world (src : nat -> Z) : World :=
  mkWorld ∅ 0%nat ∅ [] 0 src 0%nat ∅ 0%nat None.

(** [returns m w Q]: from [w], the method [m] returns normally, with a value
    and a world that satisfy [Q]. *)
Definition returns {A} (m : M A) (w : World) (Q : A -> World -> Prop) : Prop :=
  match m w with
  | Ok a w' => Q a w'
  | _ => False
  end.

(** The state a light is left in by the decision on count [v], if the
    decision returns. *)
Definition state_after (traffic_light : loc) (v : Z) (w : World)
  : option LightState :=
  match apply_policy traffic_light v w with
  | Ok _ w' => Some (state (light w' traffic_light))
  | _ => None
  end.

(** The operations of a light that the program calls. *)
Inductive LightOp :=
| Do_green
| Do_red
| Do_yellow
| Do_update (count : Z).

Definition run_op (self : loc) (op : LightOp) : M unit :=
  match op with
  | Do_green => switch_to_green self
  | Do_red => switch_to_red self
  | Do_yellow => switch_to_yellow self
  | Do_update count => update_vehicle_count self count
  end.

Fixpoint run_ops (self : loc) (ops : list LightOp) : M unit :=
  match ops with
  | [] => ret tt
  | op :: rest => bind (run_op self op) (fun _ => run_ops self rest)
  end.

(** The state an operation switches to, when it is a transition. *)
Definition target (op : LightOp) : option LightState :=
  match op with
  | Do_green => Some GREEN
  | Do_red => Some RED
  | Do_yellow => Some YELLOW
  | Do_update _ => None
  end.

(** The number of transitions among [ops]. *)
Definition transitions (ops : list LightOp) : nat := length (omap target ops).

(** The records a light named [nm] is expected to write at time [t] under
    [ops], when [seen] observations were recorded before. *)
Fixpoint records_of (nm : string) (t : Z) (seen : nat) (ops : list LightOp)
  : list LogEntry :=
  match ops with
  | [] => []
  | op :: rest =>
      match target op with
      | Some s => mkLogEntry nm s t seen :: records_of nm t seen rest
      | None => records_of nm t (S seen) rest
      end
  end.

(** The line of the log written when [self] is switched to [s] in [w]. *)
Definition entry_of (s : LightState) (self : loc) (w : World) : LogEntry :=
  mkLogEntry (name (light w self)) s (clock w)
             (length (vehicle_count_history (light w self))).

(** The world after [self] has been switched to [s]. *)
Definition switched (s : LightState) (self : loc) (w : World) : World :=
  set_console
    (console w ++ [Line_now (name (light w self)) s;
                   Line_logged (entry_of s self w)])
    (set_files (<[LOG_FILE := log_of w ++ [entry_of s self w]]> (files w))
       (set_heap (<[self := with_state s (light w self)]> (heap w)) w)).

(** The count [random.randint(0, MAX_VEHICLES)] draws next in [w]. *)
Definition drawn (w : World) : Z :=
  0 + rand_src w (rand_pos w) mod (MAX_VEHICLES - 0 + 1).

(** The state the decision switches to on count [v]. *)
Definition policy_state (v : Z) : LightState :=
  if v >? 60 then GREEN else if v =? 0 then RED else YELLOW.

(** How long a light is held after it was switched to [s]. *)
Definition hold (s : LightState) (o : TrafficLight) : Z :=
  match s with
  | GREEN => green_duration o
  | RED => red_duration o
  | YELLOW => yellow_duration o
  end.

(** The decision evaluations recorded on the console: the intersection and
    the count of every "Checking Traffic" line, oldest first. *)
Definition evaluation (l : Line) : option (string * Z) :=
  match l with
  | Line_checking nm v => Some (nm, v)
  | _ => None
  end.

Definition evaluations (w : World) : list (string * Z) :=
  omap evaluation (console w).

(** The last count evaluated for [nm] among [evs], if any. *)
Fixpoint last_eval (nm : string) (evs : list (string * Z)) : option Z :=
  match evs with
  | [] => None
  | (nm', v) :: rest =>
      match last_eval nm rest with
      | Some v' => Some v'
      | None => if decide (nm' = nm) then Some v else None
      end
  end.

(** The references a controller holds. *)
Definition lights_of (self : TrafficController) : list loc :=
  (intersections self).*2.

(** The world after the body of the [for] loop has run for [(nm, l)]. *)
Definition visited (nm : string) (l : loc) (w : World) : World :=
  let v := drawn w in
  let w1 :=
    set_console (console w ++ [Line_checking nm v])
      (set_heap (<[l := with_history (vehicle_count_history (light w l) ++ [v])
                                     (light w l)]> (heap w))
         (set_rand_pos (S (rand_pos w)) w)) in
  let w2 := switched (policy_state v) l w1 in
  set_clock (clock w2 + hold (policy_state v) (light w2 l)) w2.

(** The mapping and the world after the [for] loop has run over [items]. *)
Fixpoint swept (items : list (string * loc)) (dw : gmap string Z * World)
  : gmap string Z * World :=
  match items with
  | [] => dw
  | (nm, l) :: rest => swept rest (<[nm := drawn dw.2]> dw.1, visited nm l dw.2)
  end.

(** The mapping and the world after [n] more turns of the [while] loop. *)
Fixpoint iterated (n : nat) (self : TrafficController) (iteration_count : Z)
    (dw : gmap string Z * World) : gmap string Z * World :=
  match n with
  | O => dw
  | S n' =>
      let dw1 := swept (intersections self) dw in
      iterated n' self (iteration_count + 1)
        (dw1.1,
         set_console
           (console dw1.2 ++
              [Line_iteration (iteration_count + 1) (iterations self)])
           dw1.2)
  end.

(** [traced names dw dw']: between [dw] and [dw'] the console has gained the
    evaluations [evs], one for each of [names] in order, every count lies
    between 0 and [MAX_VEHICLES], and the mapping holds, for each
    intersection evaluated, the last count evaluated for it (and is as
    before for the others). *)
Definition traced (names : list string)
    (dw dw' : gmap string Z * World) : Prop :=
  exists evs,
    evaluations dw'.2 = evaluations dw.2 ++ evs /\
    evs.*1 = names /\
    Forall (fun ev => 0 <= ev.2 <= MAX_VEHICLES) evs /\
    forall nm, dw'.1 !! nm = from_option Some (dw.1 !! nm) (last_eval nm evs).

(** [never_green dw dw']: every record the log has gained between [dw] and
    [dw'] is a transition to RED or YELLOW, and a light that was not GREEN
    is not GREEN. *)
Definition never_green (dw dw' : gmap string Z * World) : Prop :=
  (exists entries,
     log_of dw'.2 = log_of dw.2 ++ entries /\
     Forall (fun e => log_state e = RED \/ log_state e = YELLOW) entries) /\
  (forall l, state (light dw.2 l) <> GREEN -> state (light dw'.2 l) <> GREEN).

(** [untouched locs w w']: from [w] to [w'] no object outside [locs] was
    written, no object was created, and the sockets are as they were. *)
Definition untouched (locs : list loc) (w w' : World) : Prop :=
  (forall l, l ∉ locs -> heap w' !! l = heap w !! l) /\
  next_loc w' = next_loc w /\
  open_sockets w' = open_sockets w /\
  next_conn w' = next_conn w /\
  client_socket w' = client_socket w.

(** [decodes r nm cnt]: the connection delivers a non-empty text that
    [json.loads] turns into a dictionary with the two keys of a telemetry
    record, holding [nm] and [cnt]. *)
Definition decodes (r : Received) (nm cnt : json) : Prop :=
  exists data fields,
    r = Recv_text data (Some (JDict fields)) /\
    data <> "" /\
    dict_get "intersection" fields = Some nm /\
    dict_get "vehicle_count" fields = Some cnt.

(** The exception met while reading and decoding what a connection
    delivers, if any. *)
Definition failure (r : Received) : option exn :=
  match r with
  | Recv_fails => Some OSError
  | Recv_text data loads =>
      if decide (data = "") then None
      else
        match loads with
        | None => Some JSONDecodeError
        | Some (JDict fields) =>
            match dict_get "intersection" fields with
            | None => Some (KeyError "intersection")
            | Some _ =>
                match dict_get "vehicle_count" fields with
                | None => Some (KeyError "vehicle_count")
                | Some _ => None
                end
            end
        | Some _ => Some TypeError
        end
  end.

(** The world once [accept] has returned a new socket. *)
Definition accepted (w : World) : World :=
  set_client_socket (Some (next_conn w))
    (set_next_conn (S (next_conn w))
       (set_open_sockets ({[next_conn w]} ∪ open_sockets w) w)).

(** The world after [sock] has been closed. *)
Definition closed (sock : conn) (w : World) : World :=
  set_open_sockets (open_sockets w ∖ {[sock]}) w.

(** The world after [line] has been printed. *)
Definition printed (line : Line) (w : World) : World :=
  set_console (console w ++ [line]) w.

(** [keeps P m]: [m] ends, by returning or by raising, and either way the
    world it leaves is related by [P] to the world it started in. *)
Definition keeps {A} (P : World -> World -> Prop) (m : M A) : Prop :=
  forall w,
    match m w with
    | Ok _ w' => P w w'
    | Raised _ w' => P w w'
    | OutOfFuel => False
    end.

(** [frame locs w w']: the objects outside [locs] are the same in [w'] as in
    [w]. *)
Definition frame (locs : list loc) (w w' : World) : Prop :=
  forall l, l ∉ locs -> heap w' !! l = heap w !! l.

(** The number of evaluations for intersection [nm] among [evs]. *)
Definition evaluations_of (nm : string) (evs : list (string * Z)) : nat :=
  length (filter (fun ev => ev.1 = nm) evs).

(** The world once [socket.socket] has returned a new socket. *)
Definition opened (w : World) : World :=
  set_next_conn (S (next_conn w))
    (set_open_sockets ({[next_conn w]} ∪ open_sockets w) w).

(** The world after one [send_data_to_server]. *)
Definition sent (net : SendResult) (w : World) : World :=
  closed (next_conn w)
    (match net with
     | Delivered => opened w
     | _ => printed (Line_send_error OSError) (opened w)
     end).

(** A telemetry record as a sensor sends it, decoded. *)
Definition telemetry (nm : string) (count : Z) : Received :=
  Recv_text "{...}"
    (Some (JDict [("intersection", JStr nm); ("vehicle_count", JNum count)])).

(** [agree w1 w2]: the two worlds hold the same objects, files, clock and
    random source; they may differ in what was printed and in the sockets. *)
Definition agree (w1 w2 : World) : Prop :=
  heap w1 = heap w2 /\
  next_loc w1 = next_loc w2 /\
  files w1 = files w2 /\
  clock w1 = clock w2 /\
  rand_src w1 = rand_src w2 /\
  rand_pos w1 = rand_pos w2.

(** [named items w]: every light of [items] carries the name it is filed
    under. *)
Definition named (items : list (string * loc)) (w : World) : Prop :=
  forall nm l, (nm, l) ∈ items -> name (light w l) = nm.

(** [decided items dw]: the lights of [items] are named as filed, and each
    is in the state decided by the count the mapping holds for it. *)
Definition decided (items : list (string * loc))
    (dw : gmap string Z * World) : Prop :=
  forall nm l, (nm, l) ∈ items ->
    name (light dw.2 l) = nm /\
    forall v, dw.1 !! nm = Some v -> state (light dw.2 l) = policy_state v.
(** * Reasoning about methods *)

Lemma returns_ret {A} (a : A) w (Q : A -> World -> Prop) :
  Q a w -> returns (ret a) w Q.
Proof. exact (fun H => H). Qed.

Lemma returns_bind {A B} (m : M A) (k : A -> M B) w (Q : B -> World -> Prop) :
  returns m w (fun a w' => returns (k a) w' Q) -> returns (bind m k) w Q.
Proof. unfold returns, bind. destruct (m w); auto. Qed.

Lemma returns_mono {A} (m : M A) w (Q Q' : A -> World -> Prop) :
  returns m w Q -> (forall a w', Q a w' -> Q' a w') -> returns m w Q'.
Proof. unfold returns. destruct (m w); auto. Qed.

Lemma returns_eq {A} (m : M A) w a w' (Q : A -> World -> Prop) :
  m w = Ok a w' -> Q a w' -> returns m w Q.
Proof. unfold returns. intros ->. auto. Qed.


(** ** What a transition does, exactly *)

Lemma light_set_heap_eq self o w :
  light (set_heap (<[self := o]> (heap w)) w) self = o.
Proof. unfold light. simpl. apply lookup_total_insert_eq. Qed.

Local Ltac run_switch :=
  intros; cbv [switch_to_green switch_to_red switch_to_yellow log_traffic_data
               bind ret get_light put_light print datetime_now append_line
               switched entry_of light log_of set_console set_files set_heap];
  cbn [heap next_loc files console clock rand_src rand_pos open_sockets
       next_conn client_socket];
  rewrite !lookup_total_insert_eq; cbn; rewrite <- ?app_assoc; reflexivity.

Lemma switch_to_green_run self w :
  switch_to_green self w = Ok tt (switched GREEN self w).
Proof. run_switch. Qed.

Lemma switch_to_red_run self w :
  switch_to_red self w = Ok tt (switched RED self w).
Proof. run_switch. Qed.

Lemma switch_to_yellow_run self w :
  switch_to_yellow self w = Ok tt (switched YELLOW self w).
Proof. run_switch. Qed.

Lemma log_of_switched s self w :
  log_of (switched s self w) = log_of w ++ [entry_of s self w].
Proof. unfold log_of, switched. simpl. by rewrite lookup_insert_eq. Qed.

Lemma light_switched s self w :
  light (switched s self w) self = with_state s (light w self).
Proof. unfold light, switched. simpl. apply lookup_total_insert_eq. Qed.

Lemma light_switched_ne s self l w :
  l <> self -> light (switched s self w) l = light w l.
Proof.
  intros H. unfold light, switched. simpl. by apply lookup_total_insert_ne.
Qed.

Lemma update_vehicle_count_run self count w :
  update_vehicle_count self count w =
  Ok tt (set_heap (<[self := with_history
                               (vehicle_count_history (light w self) ++ [count])
                               (light w self)]> (heap w)) w).
Proof. reflexivity. Qed.

Lemma run_op_transition self op s w :
  target op = Some s -> run_op self op w = Ok tt (switched s self w).
Proof.
  destruct op; intros [= <-]; simpl.
  - apply switch_to_green_run.
  - apply switch_to_red_run.
  - apply switch_to_yellow_run.
Qed.

Lemma records_of_length nm t seen ops :
  length (records_of nm t seen ops) = transitions ops.
Proof.
  unfold transitions. revert seen.
  induction ops as [|op ops IH]; intros seen; simpl; [done|].
  destruct (target op); simpl; by rewrite IH.
Qed.

Lemma records_of_intersection nm t seen ops :
  Forall (fun e => log_intersection e = nm) (records_of nm t seen ops).
Proof.
  revert seen. induction ops as [|op ops IH]; intros seen; simpl; [constructor|].
  destruct (target op); [constructor|]; auto.
Qed.

Lemma run_ops_log self ops : forall w,
  returns (run_ops self ops) w (fun _ w' =>
    log_of w' = log_of w ++
      records_of (name (light w self)) (clock w)
                 (length (vehicle_count_history (light w self))) ops).
Proof.
  induction ops as [|op ops IH]; intros w.
  - apply returns_ret. by rewrite app_nil_r.
  - cbn [run_ops records_of]. apply returns_bind.
    destruct (target op) as [s|] eqn:Hop.
    + eapply returns_eq; [by apply run_op_transition|].
      eapply returns_mono; [apply IH|]. intros [] w' ->.
      rewrite log_of_switched, light_switched, <- app_assoc. reflexivity.
    + destruct op; try discriminate. simpl run_op.
      eapply returns_eq; [apply update_vehicle_count_run|].
      eapply returns_mono; [apply IH|]. intros [] w' ->.
      rewrite light_set_heap_eq. simpl. rewrite length_app. simpl.
      by rewrite Nat.add_1_r.
Qed.

(** ** What [manage_traffic] does, exactly *)

Lemma apply_policy_run l v w :
  apply_policy l v w =
  Ok tt (set_clock (clock (switched (policy_state v) l w) +
                    hold (policy_state v) (light (switched (policy_state v) l w) l))
                   (switched (policy_state v) l w)).
Proof.
  unfold apply_policy, policy_state.
  destruct (v >? 60); [|destruct (v =? 0)]; unfold bind;
    rewrite ?switch_to_green_run, ?switch_to_red_run, ?switch_to_yellow_run;
    reflexivity.
Qed.

Lemma visit_run nm l data w :
  visit (nm, l) data w = Ok (<[nm := drawn w]> data) (visited nm l w).
Proof.
  unfold visit, bind. cbn [randint].
  rewrite update_vehicle_count_run. cbn [print].
  rewrite apply_policy_run. reflexivity.
Qed.

Lemma for_each_intersection_run items : forall data w,
  for_each_intersection items data w =
  Ok (swept items (data, w)).1 (swept items (data, w)).2.
Proof.
  induction items as [|[nm l] items IH]; intros data w; [reflexivity|].
  cbn [for_each_intersection swept]. unfold bind. rewrite visit_run.
  apply IH.
Qed.

Lemma while_iterations_run self fuel : forall iteration_count data w,
  (Z.to_nat (iterations self - iteration_count) <= fuel)%nat ->
  while_iterations fuel self iteration_count data w =
  Ok (iterated (Z.to_nat (iterations self - iteration_count)) self
               iteration_count (data, w)).1
     (iterated (Z.to_nat (iterations self - iteration_count)) self
               iteration_count (data, w)).2.
Proof.
  induction fuel as [|fuel IH]; intros ic data w Hfuel.
  - destruct (Z.ltb_spec ic (iterations self)) as [Hlt|Hge]; [lia|].
    replace (Z.to_nat (iterations self - ic)) with 0%nat by lia.
    simpl. destruct (Z.ltb_spec ic (iterations self)); [lia|reflexivity].
  - cbn [while_iterations].
    destruct (Z.ltb_spec ic (iterations self)) as [Hlt|Hge].
    + replace (Z.to_nat (iterations self - ic))
        with (S (Z.to_nat (iterations self - (ic + 1)))) by lia.
      cbn [iterated]. unfold bind. rewrite for_each_intersection_run.
      cbn [print]. apply IH. lia.
    + replace (Z.to_nat (iterations self - ic)) with 0%nat by lia.
      reflexivity.
Qed.

Lemma manage_traffic_fuel_run self fuel w :
  (Z.to_nat (iterations self) <= fuel)%nat ->
  manage_traffic_fuel fuel self w =
  Ok (iterated (Z.to_nat (iterations self)) self 0 (∅, w)).1
     (iterated (Z.to_nat (iterations self)) self 0 (∅, w)).2.
Proof.
  intros Hfuel. unfold manage_traffic_fuel.
  rewrite while_iterations_run by (rewrite Z.sub_0_r; exact Hfuel).
  by rewrite Z.sub_0_r.
Qed.

Lemma manage_traffic_run self w :
  manage_traffic self w =
  Ok (iterated (Z.to_nat (iterations self)) self 0 (∅, w)).1
     (iterated (Z.to_nat (iterations self)) self 0 (∅, w)).2.
Proof. by apply manage_traffic_fuel_run. Qed.

(** ** Properties kept by every step of the loops *)

Section loop_rule.
Context (R : gmap string Z * World -> gmap string Z * World -> Prop).
Context (items : list (string * loc)).
Hypothesis R_refl : forall dw, R dw dw.
Hypothesis R_trans : forall a b c, R a b -> R b c -> R a c.
Hypothesis R_visit : forall nm l data w,
  (nm, l) ∈ items -> R (data, w) (<[nm := drawn w]> data, visited nm l w).
Hypothesis R_print : forall data w line,
  R (data, w) (data, set_console (console w ++ [line]) w).

Lemma swept_rule todo : forall dw, todo ⊆ items -> R dw (swept todo dw).
Proof.
  induction todo as [|[nm l] todo IH]; intros [data w] Hsub; [apply R_refl|].
  cbn [swept]. eapply R_trans; [|apply IH; set_solver].
  apply R_visit. set_solver.
Qed.

Lemma iterated_rule self n : forall ic dw,
  intersections self = items -> R dw (iterated n self ic dw).
Proof.
  induction n as [|n IH]; intros ic dw Hitems; [apply R_refl|].
  cbn [iterated]. eapply R_trans; [|by apply IH].
  eapply R_trans; [apply (swept_rule (intersections self)); by rewrite Hitems|].
  destruct (swept (intersections self) dw) as [d1 w1]. apply R_print.
Qed.

Lemma manage_traffic_rule self w :
  intersections self = items ->
  returns (manage_traffic self) w (fun data' w' => R (∅, w) (data', w')).
Proof.
  intros Hitems. eapply returns_eq; [apply manage_traffic_run|].
  rewrite <- surjective_pairing. by apply iterated_rule.
Qed.
End loop_rule.

(** ** The counts drawn and the states they lead to *)

Lemma drawn_range w : 0 <= drawn w <= MAX_VEHICLES.
Proof.
  unfold drawn, MAX_VEHICLES.
  pose proof (Z.mod_pos_bound (rand_src w (rand_pos w)) (5 - 0 + 1)). lia.
Qed.

Lemma policy_state_in_range v :
  0 <= v <= MAX_VEHICLES -> policy_state v <> GREEN.
Proof.
  unfold MAX_VEHICLES, policy_state. intros Hv.
  destruct (Z.gtb_spec v 60); [lia|]. by destruct (v =? 0).
Qed.

Lemma policy_state_drawn w : policy_state (drawn w) <> GREEN.
Proof. apply policy_state_in_range, drawn_range. Qed.

(** ** The effect of one visit, field by field *)

Lemma evaluations_visited nm l w :
  evaluations (visited nm l w) = evaluations w ++ [(nm, drawn w)].
Proof.
  unfold evaluations, visited, switched. cbn. rewrite !omap_app.
  cbn [omap list_omap evaluation]. by rewrite app_nil_r.
Qed.

Lemma evaluations_print w line :
  evaluation line = None ->
  evaluations (set_console (console w ++ [line]) w) = evaluations w.
Proof.
  intros H. unfold evaluations. cbn. rewrite omap_app. cbn. rewrite H.
  apply app_nil_r.
Qed.

Lemma log_of_visited nm l w :
  exists e, log_of (visited nm l w) = log_of w ++ [e] /\
            log_state e = policy_state (drawn w) /\
            log_intersection e = name (light w l).
Proof.
  unfold visited. cbv zeta.
  match goal with
  | |- context [switched ?s l ?w1] =>
      exists (entry_of s l w1); split;
      [change (log_of (set_clock ?t ?w0)) with (log_of w0);
       rewrite log_of_switched; reflexivity|]
  end.
  split; [reflexivity|]. unfold entry_of. cbn [log_intersection].
  unfold light. cbn. by rewrite lookup_total_insert_eq.
Qed.

Lemma light_visited nm l w :
  light (visited nm l w) l =
  with_state (policy_state (drawn w))
    (with_history (vehicle_count_history (light w l) ++ [drawn w]) (light w l)).
Proof.
  unfold visited. cbv zeta.
  change (light (set_clock ?t ?w0) l) with (light w0 l).
  rewrite light_switched. f_equal.
  unfold light. cbn. by rewrite lookup_total_insert_eq.
Qed.

Lemma heap_visited_ne nm l l' w :
  l' <> l -> heap (visited nm l w) !! l' = heap w !! l'.
Proof.
  intros Hne. unfold visited, switched. cbn.
  by rewrite !lookup_insert_ne.
Qed.

Lemma light_visited_ne nm l l' w :
  l' <> l -> light (visited nm l w) l' = light w l'.
Proof.
  intros Hne. unfold light. unfold lookup_total, map_lookup_total.
  by rewrite heap_visited_ne.
Qed.

(** ** The trace of evaluations *)

Lemma last_eval_app nm evs1 evs2 :
  last_eval nm (evs1 ++ evs2) =
  from_option Some (last_eval nm evs1) (last_eval nm evs2).
Proof.
  induction evs1 as [|[nm' v] evs1 IH]; simpl.
  - by destruct (last_eval nm evs2).
  - rewrite IH. by destruct (last_eval nm evs2).
Qed.

Lemma last_eval_is_Some nm evs :
  is_Some (last_eval nm evs) <-> nm ∈ evs.*1.
Proof.
  induction evs as [|[nm' v] evs IH]; simpl.
  - split; [by intros [? ?]|by intros ?%elem_of_nil].
  - rewrite elem_of_cons, <- IH.
    destruct (last_eval nm evs) as [v'|].
    { split; [intros _; right|intros _]; by eexists. }
    destruct (decide (nm' = nm)) as [->|Hne].
    { split; [intros _; by left|intros _; by eexists]. }
    split; [by intros [? ?]|]. intros [?|[? ?]]; congruence.
Qed.

Lemma traced_refl dw : traced [] dw dw.
Proof.
  exists []. rewrite app_nil_r. split; [done|]. split; [done|].
  split; [constructor|]. intros nm. simpl. by destruct (dw.1 !! nm).
Qed.

Lemma traced_trans names1 names2 a b c :
  traced names1 a b -> traced names2 b c -> traced (names1 ++ names2) a c.
Proof.
  intros (evs1 & Hc1 & Hn1 & Hr1 & Hd1) (evs2 & Hc2 & Hn2 & Hr2 & Hd2).
  exists (evs1 ++ evs2). split; [|split; [|split]].
  - by rewrite Hc2, Hc1, app_assoc.
  - by rewrite fmap_app, Hn1, Hn2.
  - by apply Forall_app.
  - intros nm. rewrite Hd2, Hd1, last_eval_app.
    destruct (last_eval nm evs2); [done|].
    by destruct (last_eval nm evs1).
Qed.

Lemma traced_visit nm l data w :
  traced [nm] (data, w) (<[nm := drawn w]> data, visited nm l w).
Proof.
  exists [(nm, drawn w)]. split; [|split; [|split]].
  - apply evaluations_visited.
  - reflexivity.
  - repeat constructor; apply drawn_range.
  - intros nm'. cbn. destruct (decide (nm = nm')) as [->|Hne].
    + by rewrite lookup_insert_eq.
    + rewrite lookup_insert_ne by done. by destruct (data !! nm').
Qed.

Lemma traced_print data w line :
  evaluation line = None ->
  traced [] (data, w) (data, set_console (console w ++ [line]) w).
Proof.
  intros H. exists []. cbn [fst snd]. rewrite evaluations_print by done.
  rewrite app_nil_r. split; [done|]. split; [done|].
  split; [constructor|]. intros nm. simpl. by destruct (data !! nm).
Qed.

Lemma swept_traced items : forall dw,
  traced items.*1 dw (swept items dw).
Proof.
  induction items as [|[nm l] items IH]; intros [data w]; [apply traced_refl|].
  cbn [swept]. change (((nm, l) :: items).*1) with ([nm] ++ items.*1).
  eapply traced_trans; [apply traced_visit|apply IH].
Qed.

Lemma iterated_traced self n : forall ic dw,
  traced (concat (replicate n (intersections self).*1)) dw
         (iterated n self ic dw).
Proof.
  induction n as [|n IH]; intros ic dw; [apply traced_refl|].
  cbn [iterated replicate concat].
  eapply traced_trans; [|apply IH].
  rewrite <- (app_nil_r (intersections self).*1).
  eapply traced_trans; [apply swept_traced|].
  destruct (swept (intersections self) dw) as [d1 w1].
  by apply traced_print.
Qed.

Lemma manage_traffic_traced self w :
  returns (manage_traffic self) w (fun data' w' =>
    traced (concat (replicate (Z.to_nat (iterations self))
                              (intersections self).*1))
           (∅, w) (data', w')).
Proof.
  eapply returns_eq; [apply manage_traffic_run|].
  rewrite <- surjective_pairing. apply iterated_traced.
Qed.

Lemma elem_of_concat_replicate {A} (x : A) n (l : list A) :
  x ∈ concat (replicate n l) <-> n <> 0%nat /\ x ∈ l.
Proof.
  induction n as [|n IH]; simpl.
  - split; [by intros ?%elem_of_nil|by intros [? _]].
  - rewrite elem_of_app, IH. split; [|tauto].
    intros [?|[_ ?]]; split; auto.
Qed.

Lemma length_concat_replicate {A} n (l : list A) :
  length (concat (replicate n l)) = (n * length l)%nat.
Proof. induction n as [|n IH]; simpl; [done|]. by rewrite length_app, IH. Qed.

(** ** No transition to GREEN *)

Lemma not_green s : s <> GREEN -> s = RED \/ s = YELLOW.
Proof. destruct s; auto. by intros []. Qed.

Lemma never_green_refl dw : never_green dw dw.
Proof.
  split; [|auto]. exists []. split; [by rewrite app_nil_r|constructor].
Qed.

Lemma never_green_trans a b c :
  never_green a b -> never_green b c -> never_green a c.
Proof.
  intros [(e1 & Hl1 & He1) Hs1] [(e2 & Hl2 & He2) Hs2]. split; [|auto].
  exists (e1 ++ e2). split; [by rewrite Hl2, Hl1, app_assoc|by apply Forall_app].
Qed.

Lemma never_green_visit nm l data w :
  never_green (data, w) (<[nm := drawn w]> data, visited nm l w).
Proof.
  split; cbn [fst snd].
  - destruct (log_of_visited nm l w) as (e & Hlog & He & _).
    exists [e]. split; [done|]. constructor; [|constructor].
    apply not_green. rewrite He. apply policy_state_drawn.
  - intros l' Hl'. destruct (decide (l' = l)) as [->|Hne].
    + rewrite light_visited. apply policy_state_drawn.
    + by rewrite light_visited_ne.
Qed.

Lemma never_green_print data w line :
  never_green (data, w) (data, set_console (console w ++ [line]) w).
Proof. apply (never_green_refl (data, w)). Qed.

Lemma manage_traffic_never_green self w :
  returns (manage_traffic self) w (fun data' w' =>
    never_green (∅, w) (data', w')).
Proof.
  apply (manage_traffic_rule never_green (intersections self));
    auto using never_green_refl, never_green_visit, never_green_print.
  apply never_green_trans.
Qed.

(** ** What a controller leaves alone *)

Lemma untouched_refl locs w : untouched locs w w.
Proof. by repeat split. Qed.

Lemma untouched_trans locs a b c :
  untouched locs a b -> untouched locs b c -> untouched locs a c.
Proof.
  intros (Hh1 & ? & ? & ? & ?) (Hh2 & ? & ? & ? & ?).
  split; [|repeat split; congruence].
  intros l Hl. by rewrite Hh2, Hh1.
Qed.

Lemma untouched_visit locs nm l w :
  l ∈ locs -> untouched locs w (visited nm l w).
Proof.
  intros Hin. split; [|by repeat split].
  intros l' Hl'. apply heap_visited_ne. by intros ->.
Qed.

Lemma untouched_print locs w line :
  untouched locs w (set_console (console w ++ [line]) w).
Proof. by repeat split. Qed.

Lemma manage_traffic_untouched self w :
  returns (manage_traffic self) w (fun _ w' => untouched (lights_of self) w w').
Proof.
  apply (manage_traffic_rule
           (fun dw dw' => untouched (lights_of self) dw.2 dw'.2)
           (intersections self)); cbn [snd]; [| | | |reflexivity].
  - intros. apply untouched_refl.
  - intros a b c. apply untouched_trans.
  - intros nm l data w0 Hin. apply untouched_visit.
    unfold lights_of. apply list_elem_of_fmap. by exists (nm, l).
  - intros. apply untouched_print.
Qed.

(** ** Rules for [keeps] *)

Section keeps_rules.
Context (P : World -> World -> Prop).
Hypothesis P_refl : forall w, P w w.
Hypothesis P_trans : forall a b c, P a b -> P b c -> P a c.






End keeps_rules.

(** ** The receiver leaves the objects of others alone *)

Lemma frame_refl locs w : frame locs w w.
Proof. by intros l _. Qed.

Lemma frame_trans locs a b c : frame locs a b -> frame locs b c -> frame locs a c.
Proof. intros H1 H2 l Hl. by rewrite H2, H1. Qed.

Lemma frame_same_heap locs w w' : heap w' = heap w -> frame locs w w'.
Proof. intros H l _. by rewrite H. Qed.

Lemma keeps_frame_manage_traffic self :
  keeps (frame (lights_of self)) (manage_traffic self).
Proof.
  intros w. pose proof (manage_traffic_untouched self w) as H.
  unfold returns in H. destruct (manage_traffic self w); try done.
  destruct H as [H _]. exact H.
Qed.

Lemma keeps_frame_print locs line : keeps (frame locs) (print line).
Proof. intros w. by apply frame_same_heap. Qed.

Lemma keeps_frame_socket_new locs : keeps (frame locs) socket_new.
Proof. intros w. by apply frame_same_heap. Qed.

Lemma keeps_frame_socket_close locs sock : keeps (frame locs) (socket_close sock).
Proof. intros w. by apply frame_same_heap. Qed.

Lemma keeps_frame_close_client_socket locs :
  keeps (frame locs) close_client_socket.
Proof.
  intros w. unfold close_client_socket.
  destruct (client_socket w); by apply frame_same_heap.
Qed.

Lemma keeps_frame_subscript locs d key : keeps (frame locs) (subscript d key).
Proof.
  intros w. unfold subscript.
  destruct d; try apply frame_refl. destruct (dict_get key fields); apply frame_refl.
Qed.

Lemma keeps_frame_accept locs a : keeps (frame locs) (accept a).
Proof. intros w. destruct a; by apply frame_same_heap. Qed.

Lemma keeps_frame_recv locs r : keeps (frame locs) (recv r).
Proof. intros w. destruct r; apply frame_refl. Qed.

Lemma keeps_frame_json_loads locs r : keeps (frame locs) (json_loads r).
Proof. intros w. destruct r as [|data [doc|]]; apply frame_refl. Qed.

Create HintDb keeps_frame discriminated.
#[local] Hint Resolve frame_refl frame_trans : keeps_frame.
#[local] Hint Resolve keeps_frame_manage_traffic keeps_frame_print
  keeps_frame_socket_new keeps_frame_socket_close
  keeps_frame_close_client_socket keeps_frame_subscript keeps_frame_accept
  keeps_frame_recv keeps_frame_json_loads : keeps_frame.





(** ** What the receiver does, case by case *)

Lemma iterated_untouched self w :
  untouched (lights_of self) w
    (iterated (Z.to_nat (iterations self)) self 0 (∅, w)).2.
Proof.
  pose proof (manage_traffic_untouched self w) as H.
  unfold returns in H. by rewrite manage_traffic_run in H.
Qed.

Lemma serve_once_timeout self w :
  serve_once self Accept_timeout w = close_client_socket w.
Proof. reflexivity. Qed.

Lemma serve_once_accept_fails self w :
  serve_once self Accept_fails w =
  close_client_socket (printed (Line_request_error OSError) w).
Proof. reflexivity. Qed.

Lemma serve_once_empty self loads w :
  serve_once self (Connection (Recv_text "" loads)) w =
  Ok tt (closed (next_conn w) (accepted w)).
Proof. reflexivity. Qed.

Local Ltac run_serve_once :=
  cbv [serve_once try_finally try_except bind accept recv socket_new ret raise
       json_loads subscript print close_client_socket socket_close].

Lemma serve_once_failure self r e w :
  failure r = Some e ->
  serve_once self (Connection r) w =
  Ok tt (closed (next_conn w) (printed (Line_request_error e) (accepted w))).
Proof.
  unfold failure. destruct r as [|data loads].
  { by intros [= <-]. }
  run_serve_once. destruct (decide (data = "")); [done|].
  destruct loads as [doc|]; [|by intros [= <-]].
  destruct doc; try by intros [= <-].
  destruct (dict_get "intersection" fields); [|by intros [= <-]].
  destruct (dict_get "vehicle_count" fields); [done|].
  by intros [= <-].
Qed.

Lemma serve_once_decodes self r nm cnt w :
  decodes r nm cnt ->
  serve_once self (Connection r) w =
  Ok tt (closed (next_conn w)
           (iterated (Z.to_nat (iterations (traffic_controller self)))
                     (traffic_controller self) 0
                     (∅, printed (Line_received nm cnt) (accepted w))).2).
Proof.
  intros (data & fields & -> & Hdata & Hnm & Hcnt).
  run_serve_once. destruct (decide (data = "")); [done|].
  rewrite Hnm, Hcnt, manage_traffic_run.
  match goal with
  | |- context [iterated ?n ?tc 0 (∅, ?w1)] =>
      pose proof (iterated_untouched tc w1) as (_ & _ & _ & _ & Hsock);
      rewrite Hsock
  end.
  reflexivity.
Qed.

Lemma start_server_bind_fails self arrivals w :
  start_server self false arrivals w =
  Ok tt (printed (Line_start_error OSError)
           (set_next_conn (S (next_conn w))
              (set_open_sockets ({[next_conn w]} ∪ open_sockets w)
                 (set_client_socket None w)))).
Proof. reflexivity. Qed.

Lemma start_server_first_timeout self rest w :
  start_server self true (Accept_timeout :: rest) w =
  Raised (UnboundLocalError "client_socket")
    (printed Line_listening
       (set_next_conn (S (next_conn w))
          (set_open_sockets ({[next_conn w]} ∪ open_sockets w)
             (set_client_socket None w)))).
Proof. reflexivity. Qed.

(** ** Construction *)

Lemma TrafficController_init_run w :
  TrafficController_init w =
  Ok (mkTrafficController
        [("Intersection 1", next_loc w); ("Intersection 2", S (next_loc w));
         ("Intersection 3", S (S (next_loc w)))] 10 ∅)
     (set_next_loc (S (S (S (next_loc w))))
        (set_heap
           (<[S (S (next_loc w)) :=
                mkTrafficLight RED "Intersection 3" GREEN_LIGHT_DURATION
                               RED_LIGHT_DURATION YELLOW_LIGHT_DURATION []]>
              (<[S (next_loc w) :=
                   mkTrafficLight RED "Intersection 2" GREEN_LIGHT_DURATION
                                  RED_LIGHT_DURATION YELLOW_LIGHT_DURATION []]>
                 (<[next_loc w :=
                      mkTrafficLight RED "Intersection 1" GREEN_LIGHT_DURATION
                                     RED_LIGHT_DURATION YELLOW_LIGHT_DURATION []]>
                    (heap w)))) w)).
Proof. reflexivity. Qed.


Lemma returns_and {A} (m : M A) w (Q1 Q2 : A -> World -> Prop) :
  returns m w Q1 -> returns m w Q2 ->
  returns m w (fun a w' => Q1 a w' /\ Q2 a w').
Proof. unfold returns. destruct (m w); auto. Qed.


Lemma generate_sensor_data_run self w :
  generate_sensor_data self w =
  Ok (mkSensorData (intersection_name self) (drawn w),
      mkSensor (intersection_name self) (drawn w))
     (set_rand_pos (S (rand_pos w)) w).
Proof. reflexivity. Qed.

Lemma send_data_to_server_run data net w :
  send_data_to_server data net w = Ok tt (sent net w).
Proof. by destruct net. Qed.

Lemma evaluations_of_names nm evs :
  evaluations_of nm evs = length (filter (fun nm' => nm' = nm) evs.*1).
Proof.
  unfold evaluations_of. induction evs as [|[nm' v] evs IH]; [done|].
  cbn [fmap list_fmap fst]. rewrite !filter_cons. cbn [fst].
  destruct (decide (nm' = nm)); cbn [length]; by rewrite IH.
Qed.


(** ** The producer *)

Lemma sensor_cycle_samples self net w :
  returns (sensor_cycle self net) w (fun self' _ =>
    length (timestamps (network_traffic self')) =
      S (length (timestamps (network_traffic self))) /\
    length (vehicle_counts (network_traffic self')) =
      (3 + length (vehicle_counts (network_traffic self)))%nat).
Proof.
  destruct net as [[net_1 net_2] net_3].
  unfold returns, sensor_cycle, bind.
  rewrite !generate_sensor_data_run. cbn [datetime_now].
  rewrite !send_data_to_server_run. cbn [sleep ret network_traffic timestamps
    vehicle_counts].
  rewrite !length_app. cbn [length]. lia.
Qed.

Lemma start_sensors_samples script : forall self w,
  returns (start_sensors self script) w (fun self' _ =>
    length (timestamps (network_traffic self')) =
      (length script + length (timestamps (network_traffic self)))%nat /\
    length (vehicle_counts (network_traffic self')) =
      (3 * length script + length (vehicle_counts (network_traffic self)))%nat).
Proof.
  induction script as [|net script IH]; intros self w.
  - apply returns_ret. cbn [length]. lia.
  - cbn [start_sensors]. apply returns_bind.
    eapply returns_mono; [apply sensor_cycle_samples|].
    intros self1 w1 [Ht Hv]. eapply returns_mono; [apply IH|].
    intros self2 w2 [Ht2 Hv2]. cbn [length]. lia.
Qed.


Lemma received_cases r :
  (exists e, failure r = Some e) \/
  (exists nm cnt, decodes r nm cnt) \/
  (exists loads, r = Recv_text "" loads).
Proof.
  destruct r as [|data loads]; [left; by eexists|].
  unfold failure, decodes. destruct (decide (data = "")) as [->|Hne].
  { right. right. by eexists. }
  destruct loads as [doc|]; [|left; by eexists].
  destruct doc; try (left; by eexists).
  destruct (dict_get "intersection" fields) as [nm|] eqn:Hnm;
    [|left; by eexists].
  destruct (dict_get "vehicle_count" fields) as [cnt|] eqn:Hcnt;
    [|left; by eexists].
  right. left. exists nm, cnt, data, fields. by repeat split.
Qed.


Lemma serve_once_decodes_trace self r nm cnt w :
  decodes r nm cnt ->
  returns (serve_once self (Connection r)) w (fun _ w' =>
    (exists evs,
       evaluations w' = evaluations w ++ evs /\
       evs.*1 = concat (replicate
                  (Z.to_nat (iterations (traffic_controller self)))
                  (intersections (traffic_controller self)).*1)) /\
    next_conn w ∉ open_sockets w').
Proof.
  intros Hd. eapply returns_eq; [by apply serve_once_decodes|].
  set (w1 := printed (Line_received nm cnt) (accepted w)).
  set (tc := traffic_controller self).
  pose proof (iterated_traced tc (Z.to_nat (iterations tc)) 0 (∅, w1))
    as (evs & Hc & Hn & _ & _).
  pose proof (iterated_untouched tc w1) as (_ & _ & Hopen & _ & _).
  cbn [fst snd] in Hc. split.
  - exists evs. split; [|done].
    change (evaluations (closed ?c ?w0)) with (evaluations w0).
    rewrite Hc. unfold w1, printed. by rewrite evaluations_print.
  - unfold closed. cbn [open_sockets set_open_sockets]. rewrite Hopen.
    rewrite elem_of_difference, elem_of_singleton. tauto.
Qed.


(** ** Runs from worlds that agree *)

Lemma agree_refl w : agree w w.
Proof. by repeat split. Qed.

Lemma visited_agree nm l w1 w2 :
  agree w1 w2 ->
  drawn w1 = drawn w2 /\ agree (visited nm l w1) (visited nm l w2).
Proof.
  intros (Hh & Hn & Hf & Hc & Hs & Hp).
  assert (Hd : drawn w1 = drawn w2) by (unfold drawn; by rewrite Hs, Hp).
  split; [done|].
  unfold agree, visited, switched, entry_of, log_of, light. cbn.
  rewrite Hd, Hh, Hn, Hf, Hc, Hs, Hp. by repeat split.
Qed.

Lemma swept_agree items : forall data w1 w2,
  agree w1 w2 ->
  (swept items (data, w1)).1 = (swept items (data, w2)).1 /\
  agree (swept items (data, w1)).2 (swept items (data, w2)).2.
Proof.
  induction items as [|[nm l] items IH]; intros data w1 w2 Hag; [done|].
  cbn [swept fst snd]. destruct (visited_agree nm l w1 w2 Hag) as [-> Hag'].
  by apply IH.
Qed.

Lemma iterated_agree self n : forall ic data w1 w2,
  agree w1 w2 ->
  (iterated n self ic (data, w1)).1 = (iterated n self ic (data, w2)).1 /\
  agree (iterated n self ic (data, w1)).2 (iterated n self ic (data, w2)).2.
Proof.
  induction n as [|n IH]; intros ic data w1 w2 Hag; [done|].
  cbn [iterated].
  destruct (swept_agree (intersections self) data w1 w2 Hag) as [-> Hag'].
  apply IH. destruct Hag' as (? & ? & ? & ? & ? & ?). by repeat split.
Qed.

Lemma manage_traffic_agree self w1 w2 :
  agree w1 w2 ->
  exists data w1' w2',
    manage_traffic self w1 = Ok data w1' /\
    manage_traffic self w2 = Ok data w2' /\
    agree w1' w2'.
Proof.
  intros Hag.
  destruct (iterated_agree self (Z.to_nat (iterations self)) 0 ∅ w1 w2 Hag)
    as [Hd Hag'].
  eexists _, _, _. split; [apply manage_traffic_run|].
  split; [rewrite manage_traffic_run, <- Hd; reflexivity|done].
Qed.

Lemma sensor_cycle_agree self net w1 w2 :
  agree w1 w2 ->
  exists self' w1' w2',
    sensor_cycle self net w1 = Ok self' w1' /\
    sensor_cycle self net w2 = Ok self' w2' /\
    agree w1' w2'.
Proof.
  intros (Hh & Hn & Hf & Hc & Hs & Hp).
  destruct net as [[net_1 net_2] net_3].
  unfold sensor_cycle, bind. rewrite !generate_sensor_data_run.
  cbn [datetime_now]. rewrite !send_data_to_server_run. cbn [sleep ret].
  eexists _, _, _. split; [reflexivity|]. split.
  - unfold drawn. cbn. rewrite Hs, Hp, Hc. reflexivity.
  - unfold agree. destruct net_1, net_2, net_3; cbn; by rewrite Hp, Hc.
Qed.

Lemma start_sensors_agree script : forall self w1 w2,
  agree w1 w2 ->
  exists self' w1' w2',
    start_sensors self script w1 = Ok self' w1' /\
    start_sensors self script w2 = Ok self' w2' /\
    agree w1' w2'.
Proof.
  induction script as [|net script IH]; intros self w1 w2 Hag.
  - by exists self, w1, w2.
  - destruct (sensor_cycle_agree self net w1 w2 Hag)
      as (self1 & w1' & w2' & H1 & H2 & Hag').
    destruct (IH self1 w1' w2' Hag') as (self2 & w1'' & w2'' & H3 & H4 & Hag'').
    exists self2, w1'', w2''. cbn [start_sensors]. unfold bind.
    by rewrite H1, H2.
Qed.


(** ** The lights of the two controllers *)




Lemma decided_visit items nm l data w :
  (forall nm1 l1 nm2 l2,
     (nm1, l1) ∈ items -> (nm2, l2) ∈ items -> (nm1 = nm2 <-> l1 = l2)) ->
  (nm, l) ∈ items ->
  decided items (data, w) ->
  decided items (<[nm := drawn w]> data, visited nm l w).
Proof.
  intros Hbij Hin Hdec nm' l' Hin'. cbn [fst snd].
  destruct (Hdec nm' l' Hin') as [Hname Hstate]. cbn [fst snd] in *.
  destruct (decide (l' = l)) as [->|Hne].
  - assert (nm' = nm) as -> by exact (proj2 (Hbij nm' l nm l Hin' Hin) eq_refl).
    rewrite light_visited. split; [exact Hname|].
    intros v. rewrite lookup_insert_eq. by intros [= <-].
  - assert (nm <> nm')
      by (intros ->; exact (Hne (proj1 (Hbij nm' l' nm' l Hin' Hin) eq_refl))).
    rewrite light_visited_ne by done. split; [exact Hname|].
    intros v. rewrite lookup_insert_ne by done. apply Hstate.
Qed.

Lemma manage_traffic_decided self w :
  (forall nm1 l1 nm2 l2,
     (nm1, l1) ∈ intersections self -> (nm2, l2) ∈ intersections self ->
     (nm1 = nm2 <-> l1 = l2)) ->
  named (intersections self) w ->
  returns (manage_traffic self) w (fun data' w' =>
    decided (intersections self) (data', w')).
Proof.
  intros Hbij Hnamed.
  eapply returns_mono.
  - apply (manage_traffic_rule
             (fun dw dw' => decided (intersections self) dw ->
                            decided (intersections self) dw')
             (intersections self)); [auto|auto| | |reflexivity].
    + intros nm l data w0 Hin. by apply decided_visit.
    + intros data w0 line Hdec. exact Hdec.
  - intros data' w' H. apply H. intros nm l Hin. cbn [fst snd].
    split; [by apply Hnamed|]. intros v. by rewrite lookup_empty.
Qed.

(** ** The first connection of a new server *)



(** * More about one run of [manage_traffic] *)

#[local] Set Warnings "-clear-no-such-hyp".

Lemma log_of_visited_exact nm l w :
  log_of (visited nm l w) =
  log_of w ++
    [mkLogEntry (name (light w l)) (policy_state (drawn w)) (clock w)
                (S (length (vehicle_count_history (light w l))))].
Proof.
  unfold visited. cbv zeta.
  change (log_of (set_clock ?t ?w0)) with (log_of w0).
  rewrite log_of_switched. f_equal. unfold entry_of, light. cbn.
  rewrite lookup_total_insert_eq. cbn. rewrite length_app. cbn.
  by rewrite Nat.add_1_r.
Qed.


(** ** Histories *)

(** [followed items dw dw']: between [dw] and [dw'] the history of each
    light of [items] has grown by the counts evaluated for its
    intersection, in order. *)
Definition followed (items : list (string * loc))
    (dw dw' : gmap string Z * World) : Prop :=
  exists evs,
    evaluations dw'.2 = evaluations dw.2 ++ evs /\
    forall nm l, (nm, l) ∈ items ->
      vehicle_count_history (light dw'.2 l) =
      vehicle_count_history (light dw.2 l) ++
        (filter (fun ev => ev.1 = nm) evs).*2.

(** Names and references of [items] determine each other. *)
Definition one_to_one (items : list (string * loc)) : Prop :=
  forall nm1 l1 nm2 l2,
    (nm1, l1) ∈ items -> (nm2, l2) ∈ items -> (nm1 = nm2 <-> l1 = l2).

Lemma followed_refl items dw : followed items dw dw.
Proof.
  exists []. rewrite app_nil_r. split; [done|].
  intros nm l _. by rewrite filter_nil, app_nil_r.
Qed.

Lemma followed_trans items a b c :
  followed items a b -> followed items b c -> followed items a c.
Proof.
  intros (e1 & Hc1 & H1) (e2 & Hc2 & H2). exists (e1 ++ e2).
  split; [by rewrite Hc2, Hc1, app_assoc|].
  intros nm l Hin. rewrite (H2 nm l Hin), (H1 nm l Hin).
  by rewrite filter_app, fmap_app, app_assoc.
Qed.

Lemma followed_visit items nm l data w :
  one_to_one items -> (nm, l) ∈ items ->
  followed items (data, w) (<[nm := drawn w]> data, visited nm l w).
Proof.
  intros Hbij Hin. exists [(nm, drawn w)]. cbn [fst snd].
  split; [apply evaluations_visited|].
  intros nm' l' Hin'. rewrite filter_cons, filter_nil. cbn [fst].
  destruct (decide (l' = l)) as [->|Hne].
  - assert (nm' = nm) as -> by exact (proj2 (Hbij nm' l nm l Hin' Hin) eq_refl).
    rewrite decide_True by done. by rewrite light_visited.
  - assert (nm <> nm')
      by (intros ->; exact (Hne (proj1 (Hbij nm' l' nm' l Hin' Hin) eq_refl))).
    rewrite decide_False by done. rewrite light_visited_ne by done.
    by rewrite app_nil_r.
Qed.

Lemma followed_print items data w line :
  evaluation line = None ->
  followed items (data, w) (data, set_console (console w ++ [line]) w).
Proof.
  intros H. exists []. cbn [fst snd]. rewrite evaluations_print by done.
  rewrite app_nil_r. split; [done|].
  intros nm l _. by rewrite filter_nil, app_nil_r.
Qed.

Lemma manage_traffic_followed self w :
  one_to_one (intersections self) ->
  returns (manage_traffic self) w (fun data' w' =>
    followed (intersections self) (∅, w) (data', w')).
Proof.
  intros Hbij. eapply returns_eq; [apply manage_traffic_run|].
  rewrite <- surjective_pairing.
  set (items := intersections self).
  assert (Hs : forall todo dw, todo ⊆ items -> followed items dw (swept todo dw)).
  { induction todo as [|[nm l] todo IH]; intros [d w0] Hsub;
      [apply followed_refl|].
    cbn [swept]. eapply followed_trans; [|apply IH; set_solver].
    apply followed_visit; [exact Hbij|set_solver]. }
  generalize 0 (∅ : gmap string Z, w).
  induction (Z.to_nat (iterations self)) as [|n IH]; intros ic dw;
    [apply followed_refl|].
  cbn [iterated]. eapply followed_trans; [|apply IH].
  eapply followed_trans; [by apply (Hs items)|].
  fold items. destruct (swept items dw) as [d1 w1]. by apply followed_print.
Qed.

Lemma last_eval_filter nm evs :
  last_eval nm evs = last (filter (fun ev => ev.1 = nm) evs).*2.
Proof.
  induction evs as [|[nm' v] evs IH]; [done|].
  cbn [last_eval]. rewrite filter_cons. cbn [fst]. rewrite IH.
  destruct (decide (nm' = nm)) as [->|Hne].
  - cbn [fmap list_fmap snd]. rewrite last_cons.
    by destruct (last (filter (fun ev => ev.1 = nm) evs).*2).
  - by destruct (last (filter (fun ev => ev.1 = nm) evs).*2).
Qed.

Lemma init_items_one_to_one (n : nat) :
  one_to_one [("Intersection 1", n); ("Intersection 2", S n);
              ("Intersection 3", S (S n))].
Proof.
  intros nm1 l1 nm2 l2. rewrite !elem_of_cons, !elem_of_nil.
  intros [[= -> ->]|[[= -> ->]|[[= -> ->]|[]]]]
         [[= -> ->]|[[= -> ->]|[[= -> ->]|[]]]];
    split; intros H; try done; try discriminate H; lia.
Qed.


(** ** The time a run takes *)

(** How long the light is held after the decision on count [v], for a light
    with the durations of the constants and a count that does not decide
    for GREEN. *)
Definition hold_of (v : Z) : Z :=
  if v =? 0 then RED_LIGHT_DURATION else YELLOW_LIGHT_DURATION.

Definition total_hold (evs : list (string * Z)) : Z :=
  foldr (fun ev acc => hold_of ev.2 + acc) 0 evs.

(** The lights of [items] have the durations [__init__] gives them. *)
Definition default_durations (items : list (string * loc)) (w : World) : Prop :=
  forall nm l, (nm, l) ∈ items ->
    red_duration (light w l) = RED_LIGHT_DURATION /\
    yellow_duration (light w l) = YELLOW_LIGHT_DURATION.

(** [timed items dw dw']: if the lights of [items] have the default
    durations in [dw], they have them in [dw'], and the clock has advanced
    by the holds of the evaluations made in between. *)
Definition timed (items : list (string * loc))
    (dw dw' : gmap string Z * World) : Prop :=
  default_durations items dw.2 ->
  default_durations items dw'.2 /\
  exists evs,
    evaluations dw'.2 = evaluations dw.2 ++ evs /\
    clock dw'.2 = clock dw.2 + total_hold evs.

Lemma total_hold_app evs1 evs2 :
  total_hold (evs1 ++ evs2) = total_hold evs1 + total_hold evs2.
Proof.
  unfold total_hold. induction evs1 as [|ev evs1 IH]; cbn; [done|].
  rewrite IH. lia.
Qed.

Lemma total_hold_bounds evs :
  5 * Z.of_nat (length evs) <= total_hold evs <= 10 * Z.of_nat (length evs).
Proof.
  unfold total_hold. induction evs as [|ev evs IH]; cbn [foldr length]; [lia|].
  assert (5 <= hold_of ev.2 <= 10)
    by (unfold hold_of, RED_LIGHT_DURATION, YELLOW_LIGHT_DURATION;
        destruct (ev.2 =? 0); lia).
  lia.
Qed.

Lemma clock_visited nm l w :
  clock (visited nm l w) =
  clock w + hold (policy_state (drawn w)) (light w l).
Proof.
  unfold visited. cbv zeta. cbn [clock set_clock].
  rewrite light_switched. unfold switched. cbn [clock set_console set_files
    set_heap set_rand_pos]. f_equal.
  unfold light. cbn. rewrite lookup_total_insert_eq.
  by destruct (policy_state (drawn w)).
Qed.

Lemma timed_refl items dw : timed items dw dw.
Proof. intros H. split; [done|]. exists []. rewrite app_nil_r. cbn. split; [done|lia]. Qed.

Lemma timed_trans items a b c :
  timed items a b -> timed items b c -> timed items a c.
Proof.
  intros H1 H2 Ha. destruct (H1 Ha) as (Hb & e1 & Hc1 & Ht1).
  destruct (H2 Hb) as (Hc & e2 & Hc2 & Ht2). split; [done|].
  exists (e1 ++ e2). split; [by rewrite Hc2, Hc1, app_assoc|].
  rewrite total_hold_app. lia.
Qed.

Lemma timed_visit items nm l data w :
  (nm, l) ∈ items ->
  timed items (data, w) (<[nm := drawn w]> data, visited nm l w).
Proof.
  intros Hin Hd. cbn [fst snd] in *. split.
  - intros nm' l' Hin'. destruct (decide (l' = l)) as [->|Hne].
    + rewrite light_visited. cbn. by apply (Hd nm').
    + rewrite light_visited_ne by done. by apply (Hd nm').
  - exists [(nm, drawn w)]. split; [apply evaluations_visited|].
    rewrite clock_visited. cbn. f_equal.
    destruct (Hd nm l Hin) as [Hr Hy].
    pose proof (drawn_range w) as Hrange. unfold MAX_VEHICLES in Hrange.
    unfold policy_state, hold_of.
    destruct (Z.gtb_spec (drawn w) 60); [lia|].
    destruct (drawn w =? 0); cbn; lia.
Qed.

Lemma timed_print items data w line :
  evaluation line = None ->
  timed items (data, w) (data, set_console (console w ++ [line]) w).
Proof.
  intros H Hd. cbn [fst snd] in *. split; [exact Hd|].
  exists []. rewrite evaluations_print by done. rewrite app_nil_r. cbn.
  split; [done|lia].
Qed.

Lemma manage_traffic_timed self w :
  returns (manage_traffic self) w (fun data' w' =>
    timed (intersections self) (∅, w) (data', w')).
Proof.
  eapply returns_eq; [apply manage_traffic_run|].
  rewrite <- surjective_pairing.
  set (items := intersections self).
  assert (Hs : forall todo dw, todo ⊆ items -> timed items dw (swept todo dw)).
  { induction todo as [|[nm l] todo IH]; intros [d w0] Hsub;
      [apply timed_refl|].
    cbn [swept]. eapply timed_trans; [|apply IH; set_solver].
    apply timed_visit. set_solver. }
  generalize 0 (∅ : gmap string Z, w).
  induction (Z.to_nat (iterations self)) as [|n IH]; intros ic dw;
    [apply timed_refl|].
  cbn [iterated]. eapply timed_trans; [|apply IH].
  eapply timed_trans; [by apply (Hs items)|].
  fold items. destruct (swept items dw) as [d1 w1]. by apply timed_print.
Qed.

(** ** One record per evaluation *)

(** [filed items dw dw']: if the lights of [items] carry the names they are
    filed under in [dw], they do in [dw'], and between the two the log has
    gained one record for each evaluation the console has gained, in the
    same order: the record names the intersection evaluated, carries the
    state decided by the count evaluated, and counts at least one
    observation. *)
Definition filed (items : list (string * loc))
    (dw dw' : gmap string Z * World) : Prop :=
  named items dw.2 ->
  named items dw'.2 /\
  exists entries evs,
    log_of dw'.2 = log_of dw.2 ++ entries /\
    evaluations dw'.2 = evaluations dw.2 ++ evs /\
    Forall2 (fun e ev => log_intersection e = ev.1 /\
                         log_state e = policy_state ev.2 /\
                         (1 <= log_vehicle_count e)%nat) entries evs.

Lemma filed_refl items dw : filed items dw dw.
Proof.
  intros H. split; [done|]. exists [], []. rewrite !app_nil_r.
  by repeat split.
Qed.

Lemma filed_trans items a b c :
  filed items a b -> filed items b c -> filed items a c.
Proof.
  intros H1 H2 Ha. destruct (H1 Ha) as (Hb & e1 & v1 & Hl1 & Hc1 & HF1).
  destruct (H2 Hb) as (Hc & e2 & v2 & Hl2 & Hc2 & HF2). split; [done|].
  exists (e1 ++ e2), (v1 ++ v2). split; [|split].
  - by rewrite Hl2, Hl1, app_assoc.
  - by rewrite Hc2, Hc1, app_assoc.
  - by apply Forall2_app.
Qed.

Lemma filed_visit items nm l data w :
  (nm, l) ∈ items ->
  filed items (data, w) (<[nm := drawn w]> data, visited nm l w).
Proof.
  intros Hin Hn. cbn [fst snd] in *. split.
  - intros nm' l' Hin'. destruct (decide (l' = l)) as [->|Hne].
    + rewrite light_visited. cbn. by apply Hn.
    + rewrite light_visited_ne by done. by apply Hn.
  - eexists [_], [_]. split; [apply log_of_visited_exact|].
    split; [apply evaluations_visited|].
    constructor; [|constructor]. cbn. split; [by apply Hn|]. split; [done|lia].
Qed.

Lemma filed_print items data w line :
  evaluation line = None ->
  filed items (data, w) (data, set_console (console w ++ [line]) w).
Proof.
  intros H Hn. cbn [fst snd] in *. split; [exact Hn|].
  exists [], []. rewrite evaluations_print by done. rewrite !app_nil_r.
  by repeat split.
Qed.

Lemma manage_traffic_filed self w :
  returns (manage_traffic self) w (fun data' w' =>
    filed (intersections self) (∅, w) (data', w')).
Proof.
  eapply returns_eq; [apply manage_traffic_run|].
  rewrite <- surjective_pairing.
  set (items := intersections self).
  assert (Hs : forall todo dw,
            todo ⊆ items -> filed items dw (swept todo dw)).
  { induction todo as [|[nm l] todo IH]; intros [d w0] Hsub;
      [apply filed_refl|].
    cbn [swept]. eapply filed_trans; [|apply IH; set_solver].
    apply filed_visit. set_solver. }
  generalize 0 (∅ : gmap string Z, w).
  induction (Z.to_nat (iterations self)) as [|n IH]; intros ic dw;
    [apply filed_refl|].
  cbn [iterated]. eapply filed_trans; [|apply IH].
  eapply filed_trans; [by apply (Hs items)|].
  fold items. destruct (swept items dw) as [d1 w1]. by apply filed_print.
Qed.

(** ** The lights of a new controller *)

(** [as_built items w]: every light of [items] is as [TrafficLight.__init__]
    leaves it: RED, named as filed, with the durations of the constants and
    no observation. *)
Definition as_built (items : list (string * loc)) (w : World) : Prop :=
  forall nm l, (nm, l) ∈ items ->
    light w l = mkTrafficLight RED nm GREEN_LIGHT_DURATION RED_LIGHT_DURATION
                               YELLOW_LIGHT_DURATION [].

Lemma TrafficController_init_as_built w :
  returns TrafficController_init w (fun self w0 =>
    as_built (intersections self) w0).
Proof.
  eapply returns_eq; [apply TrafficController_init_run|].
  intros nm l. cbn [intersections].
  rewrite !elem_of_cons, !elem_of_nil. unfold light.
  cbn [heap set_heap set_next_loc].
  intros [[= -> ->]|[[= -> ->]|[[= -> ->]|[]]]];
    rewrite ?lookup_total_insert_ne by lia;
    by rewrite lookup_total_insert_eq.
Qed.

Lemma as_built_named items w : as_built items w -> named items w.
Proof. intros H nm l Hin. by rewrite (H nm l Hin). Qed.

Lemma as_built_default_durations items w :
  as_built items w -> default_durations items w.
Proof. intros H nm l Hin. by rewrite (H nm l Hin). Qed.

(** ** The draw of a sensor *)








(** * The claims *)

(** ** C1: the decision of the controller *)

Example state_after_61 :
  state_after 0%nat 61 (initial_world (fun _ => 0)) = Some GREEN.
Proof. reflexivity. Qed.

Example state_after_60 :
  state_after 0%nat 60 (initial_world (fun _ => 0)) = Some YELLOW.
Proof. reflexivity. Qed.

(** C1.  The decision taken in [manage_traffic] on a vehicle count [v]
    returns, and the state it leaves the light in depends on [v] only (not
    on the light, nor on the world): GREEN when [v > 60], RED when [v = 0],
    YELLOW when [0 < v <= 60]. *)
Theorem policy_determined_by_count (v : Z) :
  (forall l1 w1 l2 w2, state_after l1 v w1 = state_after l2 v w2) /\
  (forall l w, 60 < v -> state_after l v w = Some GREEN) /\
  (forall l w, v = 0 -> state_after l v w = Some RED) /\
  (forall l w, 0 < v <= 60 -> state_after l v w = Some YELLOW).
Proof.
  assert (Hrun : forall l w,
    state_after l v w =
    Some (if v >? 60 then GREEN else if v =? 0 then RED else YELLOW)).
  { intros l w. unfold state_after, apply_policy.
    destruct (v >? 60); [|destruct (v =? 0)]; unfold bind;
      rewrite ?switch_to_green_run, ?switch_to_red_run, ?switch_to_yellow_run;
      cbn [get_light sleep];
      change (light (set_clock ?t ?w0) l) with (light w0 l);
      by rewrite light_switched. }
  split; [intros; by rewrite !Hrun|].
  repeat split; intros l w Hv; rewrite Hrun.
  - by destruct (Z.gtb_spec v 60); [|lia].
  - by subst v.
  - destruct (Z.gtb_spec v 60); [lia|]. by destruct (Z.eqb_spec v 0); [lia|].
Qed.

(** ** C2: a run of [manage_traffic] with the default configuration *)

Example default_run_from_counter :
  returns (bind TrafficController_init manage_traffic)
          (initial_world (fun n => Z.of_nat n))
          (fun intersection_data w' =>
             map_to_list intersection_data =
               [("Intersection 3", 5); ("Intersection 1", 3);
                ("Intersection 2", 4)] /\
             length (evaluations w') = 30%nat).
Proof. by vm_compute. Qed.

(** C2.  [manage_traffic] on a controller as [__init__] builds it (10
    iterations, 3 intersections) returns; it performs exactly 30 decision
    evaluations, those of 10 rounds over the three intersections in order;
    the mapping it returns has exactly the 3 intersection names as keys, and
    holds for each the last count evaluated for it.  Each evaluation is a
    decision taken: it logs one record, in the order of the evaluations,
    that names the intersection evaluated and carries the state decided by
    the count evaluated; each light has observed exactly the counts
    evaluated for its intersection, and is left in the state decided by the
    count the mapping holds for it; the clock has advanced by the holds of
    the 30 decisions. *)
Theorem default_run_evaluates_thirty (w : World) :
  returns TrafficController_init w (fun self w0 =>
    iterations self = 10 /\
    (intersections self).*1 =
      ["Intersection 1"; "Intersection 2"; "Intersection 3"] /\
    returns (manage_traffic self) w0 (fun intersection_data w' =>
      exists evs,
        evaluations w' = evaluations w0 ++ evs /\
        length evs = 30%nat /\
        evs.*1 = concat (replicate 10 (intersections self).*1) /\
        dom intersection_data =
          {["Intersection 1"; "Intersection 2"; "Intersection 3"]} /\
        size intersection_data = 3%nat /\
        (forall nm, nm ∈ dom intersection_data ->
                    intersection_data !! nm = last_eval nm evs) /\
        (exists entries,
           log_of w' = log_of w0 ++ entries /\
           Forall2 (fun e ev => log_intersection e = ev.1 /\
                                log_state e = policy_state ev.2 /\
                                (1 <= log_vehicle_count e)%nat) entries evs) /\
        (forall nm l, (nm, l) ∈ intersections self ->
           vehicle_count_history (light w' l) =
             (filter (fun ev => ev.1 = nm) evs).*2 /\
           exists v, intersection_data !! nm = Some v /\
                     last_eval nm evs = Some v /\
                     state (light w' l) = policy_state v) /\
        clock w' = clock w0 + total_hold evs)).
Proof.
  pose proof (TrafficController_init_as_built w) as Hbuilt.
  revert Hbuilt. unfold returns at 1 2.
  rewrite TrafficController_init_run.
  set (self := mkTrafficController _ 10 ∅). set (w0 := set_next_loc _ _).
  intros Hbuilt.
  split; [reflexivity|]. split; [reflexivity|].
  pose proof (init_items_one_to_one (next_loc w)) as Hbij.
  eapply returns_mono;
    [apply returns_and;
       [apply (manage_traffic_traced self)
       |apply returns_and;
          [apply (manage_traffic_filed self)
          |apply returns_and;
             [apply (manage_traffic_decided self);
                [exact Hbij|by apply as_built_named]
             |apply returns_and;
                [apply (manage_traffic_followed self); exact Hbij
                |apply (manage_traffic_timed self)]]]]|].
  intros data w' [(evs & Hc & Hn & _ & Hd) [Hf [Hdec [(evs2 & Hc2 & Hh) Ht]]]].
  cbn [fst snd] in *.
  destruct (Hf (as_built_named _ _ Hbuilt))
    as (_ & entries & evs1 & Hl & Hc1 & HF).
  destruct (Ht (as_built_default_durations _ _ Hbuilt))
    as (_ & evs3 & Hc3 & Hclock).
  cbn [fst snd] in *.
  assert (evs1 = evs) as ->
    by (rewrite Hc in Hc1; by apply app_inv_head in Hc1).
  assert (evs2 = evs) as ->
    by (rewrite Hc in Hc2; by apply app_inv_head in Hc2).
  assert (evs3 = evs) as ->
    by (rewrite Hc in Hc3; by apply app_inv_head in Hc3).
  change (Z.to_nat (iterations _)) with 10%nat in Hn.
  assert (Hd' : forall nm, data !! nm = last_eval nm evs).
  { intros nm. rewrite Hd, lookup_empty. by destruct (last_eval nm evs). }
  assert (Hdom : dom data =
            {["Intersection 1"; "Intersection 2"; "Intersection 3"]}).
  { apply set_eq. intros nm.
    rewrite elem_of_dom, Hd', last_eval_is_Some, Hn, elem_of_concat_replicate.
    unfold self. cbn [intersections fmap list_fmap fst].
    rewrite !elem_of_union, !elem_of_singleton, !elem_of_cons, elem_of_nil.
    intuition lia. }
  exists evs. split; [done|]. split.
  { rewrite <- (length_fmap fst), Hn, length_concat_replicate. reflexivity. }
  split; [done|]. split; [done|].
  split; [rewrite <- size_dom, Hdom; by vm_compute|].
  split; [by intros nm _|].
  split; [by exists entries|].
  split; [|exact Hclock].
  intros nm l Hin. split.
  - rewrite (Hh nm l Hin), (Hbuilt nm l Hin). reflexivity.
  - assert (Hsome : is_Some (data !! nm)).
    { apply elem_of_dom. rewrite Hdom. revert Hin. unfold self.
      cbn [intersections]. rewrite !elem_of_cons, elem_of_nil.
      intros [[= -> _]|[[= -> _]|[[= -> _]|[]]]]; set_solver. }
    destruct Hsome as [v Hv]. exists v. split; [done|].
    split; [by rewrite <- Hd'|].
    destruct (Hdec nm l Hin) as [_ Hstate]. by apply Hstate.
Qed.

(** ** C3: one record per transition *)

(** C3.  A transition of a light ([switch_to_green], [switch_to_red],
    [switch_to_yellow]) appends exactly one record to the log: it carries the
    name of the light, the new state, the time of the clock, and as
    [vehicle_count] the length of the observation history of the light.
    Hence, whatever operations are run on a light, the records appended are
    those of its transitions, one each and in order, [N] in all when there
    are [N] transitions, all under the name of the light. *)
Theorem one_record_per_transition (self : loc) (w : World) :
  (forall op s, target op = Some s ->
     returns (run_op self op) w (fun _ w' =>
       state (light w' self) = s /\
       log_of w' = log_of w ++
         [mkLogEntry (name (light w self)) s (clock w)
                     (length (vehicle_count_history (light w self)))])) /\
  (forall ops,
     returns (run_ops self ops) w (fun _ w' =>
       exists records,
         log_of w' = log_of w ++ records /\
         length records = transitions ops /\
         Forall (fun e => log_intersection e = name (light w self)) records /\
         records = records_of (name (light w self)) (clock w)
                     (length (vehicle_count_history (light w self))) ops)).
Proof.
  split.
  - intros op s Hop. eapply returns_eq; [by apply run_op_transition|].
    split; [by rewrite light_switched|apply log_of_switched].
  - intros ops. eapply returns_mono; [apply run_ops_log|].
    intros [] w' Hlog. eexists. split; [exact Hlog|].
    split; [apply records_of_length|].
    split; [apply records_of_intersection|reflexivity].
Qed.

(** ** C4: what a decoded record triggers *)

Example garbled_text_fails : failure (Recv_text "{" None) = Some JSONDecodeError.
Proof. reflexivity. Qed.

Example missing_key_fails :
  failure (Recv_text "{...}" (Some (JDict [("intersection", JStr "A")])))
  = Some (KeyError "vehicle_count").
Proof. reflexivity. Qed.



(** ** C5: the [finally] block of the receiver *)

Example timeout_after_a_connection :
  returns
    (bind Server_init (fun self =>
       start_server self true
         [Connection (Recv_text "{" None); Accept_timeout; Accept_fails]))
    (initial_world (fun _ => 0))
    (fun _ w' =>
       console w' = [Line_listening; Line_request_error JSONDecodeError;
                     Line_request_error OSError] /\
       open_sockets w' = ∅).
Proof. by vm_compute. Qed.

(** C5, evaluated where it fails.  When the first [accept] of the receiver
    times out, the [finally] block reads [client_socket], which was never
    assigned: [start_server] ends with [UnboundLocalError], the remaining
    arrivals are never served, and the listening socket stays open. *)
Theorem first_timeout_ends_the_receiver (self : Server) (rest : list Arrival)
    (w : World) :
  exists w',
    start_server self true (Accept_timeout :: rest) w =
      Raised (UnboundLocalError "client_socket") w' /\
    console w' = console w ++ [Line_listening] /\
    evaluations w' = evaluations w /\
    next_conn w ∈ open_sockets w'.
Proof.
  eexists. split; [apply start_server_first_timeout|].
  split; [reflexivity|]. split.
  - unfold evaluations. cbn. rewrite omap_app. cbn. apply app_nil_r.
  - cbn. apply elem_of_union. left. by apply elem_of_singleton.
Qed.

(** ** C6: a sample of a sensor *)



(** ** C7: the samples of the producer *)

(** C7, evaluated.  A turn of [start_sensors] appends one timestamp and
    three counts: after [n] turns of a new [TrafficSystem] there are [n]
    timestamps and [3 * n] counts, which differ as soon as [n] is not 0. *)
Theorem samples_per_cycle (w : World)
    (script : list (SendResult * SendResult * SendResult)) :
  returns TrafficSystem_init w (fun traffic_system w0 =>
    forall w1,
      returns (start_sensors traffic_system script) w1 (fun traffic_system' _ =>
        length (timestamps (network_traffic traffic_system')) = length script /\
        length (vehicle_counts (network_traffic traffic_system')) =
          (3 * length script)%nat)).
Proof.
  unfold returns at 1. cbn. intros w1.
  eapply returns_mono; [apply start_sensors_samples|].
  intros self' w' [Ht Hv]. cbn [network_traffic timestamps vehicle_counts length] in *.
  lia.
Qed.

Example one_cycle_one_timestamp_three_counts :
  returns
    (bind TrafficSystem_init (fun traffic_system =>
       start_sensors traffic_system [(Delivered, Delivered, Delivered)]))
    (initial_world (fun n => Z.of_nat n))
    (fun traffic_system' _ =>
       timestamps (network_traffic traffic_system') = [0] /\
       vehicle_counts (network_traffic traffic_system') = [0; 1; 2]).
Proof. by vm_compute. Qed.


(** ** C8: a receiver that cannot bind *)

(** C8.  When [bind] fails, [start_server] returns normally: it prints the
    error and does nothing else to the objects, the files, the clock or the
    random source.  The producer and the decision loop, run in the world the
    receiver leaves, return what they return without it, with the same
    effect on objects, files, clock and random source. *)
Theorem bind_failure_ends_the_receiver_only (self : Server)
    (arrivals : list Arrival) (w : World) :
  exists w1,
    start_server self false arrivals w = Ok tt w1 /\
    console w1 = console w ++ [Line_start_error OSError] /\
    agree w w1 /\
    (forall traffic_system script, exists traffic_system' w2 w2',
       start_sensors traffic_system script w = Ok traffic_system' w2 /\
       start_sensors traffic_system script w1 = Ok traffic_system' w2' /\
       agree w2 w2') /\
    (forall controller, exists intersection_data w3 w3',
       manage_traffic controller w = Ok intersection_data w3 /\
       manage_traffic controller w1 = Ok intersection_data w3' /\
       agree w3 w3').
Proof.
  eexists. split; [apply start_server_bind_fails|].
  split; [reflexivity|].
  assert (Hag : agree w
            (printed (Line_start_error OSError)
               (set_next_conn (S (next_conn w))
                  (set_open_sockets ({[next_conn w]} ∪ open_sockets w)
                     (set_client_socket None w))))) by by repeat split.
  split; [exact Hag|]. split.
  - intros ts script. by apply start_sensors_agree.
  - intros tc. by apply manage_traffic_agree.
Qed.

(** ** C9: GREEN is out of reach *)

(** C9.  The lights of a new controller are RED.  Every run of
    [manage_traffic], on any controller and from any world, returns; the
    counts it evaluates lie between 0 and [MAX_VEHICLES], none of them
    decides for GREEN, every record it logs is a transition to RED or to
    YELLOW, and a light that was not GREEN before is not GREEN after. *)
Theorem green_is_unreachable (w : World) :
  returns TrafficController_init w (fun self w0 =>
    Forall (fun l => state (light w0 l) = RED) (lights_of self)) /\
  forall self,
    returns (manage_traffic self) w (fun _ w' =>
      (exists evs,
         evaluations w' = evaluations w ++ evs /\
         Forall (fun ev => 0 <= ev.2 <= MAX_VEHICLES /\
                           policy_state ev.2 <> GREEN) evs) /\
      (exists entries,
         log_of w' = log_of w ++ entries /\
         Forall (fun e => log_state e = RED \/ log_state e = YELLOW) entries) /\
      (forall l, state (light w l) <> GREEN -> state (light w' l) <> GREEN)).
Proof.
  split.
  - eapply returns_eq; [apply TrafficController_init_run|].
    unfold lights_of, light. cbn.
    repeat constructor.
    + rewrite !lookup_total_insert_ne by lia. by rewrite lookup_total_insert_eq.
    + rewrite !lookup_total_insert_ne by lia. by rewrite lookup_total_insert_eq.
    + by rewrite lookup_total_insert_eq.
  - intros self.
    eapply returns_mono;
      [apply returns_and;
         [apply manage_traffic_traced|apply manage_traffic_never_green]|].
    intros data w' [(evs & Hc & _ & Hr & _) [Hlog Hst]]. cbn [fst snd] in *.
    split; [|by split].
    exists evs. split; [done|].
    eapply Forall_impl; [exact Hr|]. intros ev Hev.
    split; [done|by apply policy_state_in_range].
Qed.

(** ** C10: the lights of the system and the lights of the server *)


(** * Further properties of the code *)

From stdpp Require Import sorting.
Local Open Scope Z_scope.
#[local] Set Warnings "-clear-no-such-hyp".

(** ** Operations on one light *)

(** The counts recorded by the [update_vehicle_count] calls among [ops]. *)
Definition observed (ops : list LightOp) : list Z :=
  omap (fun op => match op with Do_update count => Some count | _ => None end)
       ops.

Lemma light_updated_eq self o w :
  light (set_heap (<[self := o]> (heap w)) w) self = o.
Proof. unfold light. cbn. apply lookup_total_insert_eq. Qed.

Lemma light_updated_ne self l o w :
  l <> self -> light (set_heap (<[self := o]> (heap w)) w) l = light w l.
Proof. intros H. unfold light. cbn. by apply lookup_total_insert_ne. Qed.

(** X1.  Whatever operations are run on a light, its observation history
    grows by exactly the counts passed to [update_vehicle_count], in order
    (transitions add nothing), and [get_vehicle_count] then returns the
    number of observations: the old number plus the number of updates,
    whatever the counts were.  [get_vehicle_count] changes nothing. *)
Theorem history_collects_updates (self : loc) (ops : list LightOp) (w : World) :
  returns (run_ops self ops) w (fun _ w' =>
    vehicle_count_history (light w' self) =
      vehicle_count_history (light w self) ++ observed ops /\
    returns (get_vehicle_count self) w' (fun n w'' =>
      n = (length (vehicle_count_history (light w self)) +
           length (observed ops))%nat /\
      w'' = w')).
Proof.
  assert (Hhist : returns (run_ops self ops) w (fun _ w' =>
            vehicle_count_history (light w' self) =
            vehicle_count_history (light w self) ++ observed ops)).
  { revert w. induction ops as [|op ops IH]; intros w.
    - apply returns_ret. by rewrite app_nil_r.
    - cbn [run_ops]. apply returns_bind.
      destruct (target op) as [s|] eqn:Hop.
      + eapply returns_eq; [by apply run_op_transition|].
        eapply returns_mono; [apply IH|]. intros [] w' ->.
        rewrite light_switched. destruct op; try discriminate; reflexivity.
      + destruct op; try discriminate. cbn [run_op].
        eapply returns_eq; [apply update_vehicle_count_run|].
        eapply returns_mono; [apply IH|]. intros [] w' ->.
        rewrite light_updated_eq. cbn. by rewrite <- app_assoc. }
  eapply returns_mono; [exact Hhist|]. intros [] w' Hw'.
  split; [exact Hw'|].
  unfold returns, get_vehicle_count, bind, get_light, ret.
  by rewrite Hw', length_app.
Qed.

(** The last state asked for among [ops], if any. *)
Definition last_target (ops : list LightOp) : option LightState :=
  last (omap target ops).

Lemma last_target_cons s0 op ops :
  default s0 (last_target (op :: ops)) =
  default (default s0 (target op)) (last_target ops).
Proof.
  unfold last_target. cbn [omap list_omap].
  destruct (target op) as [s|]; [|done]. cbn [default].
  rewrite last_cons. by destruct (last (omap target ops)).
Qed.

(** X2.  Operations on one light are local to it: every other light is
    left as it was; the light keeps its name and its three durations; and
    its state is the one of the last transition asked for (the state it had
    when there was none). *)
Theorem light_operations_are_local (self : loc) (ops : list LightOp)
    (w : World) :
  returns (run_ops self ops) w (fun _ w' =>
    (forall l, l <> self -> light w' l = light w l) /\
    name (light w' self) = name (light w self) /\
    green_duration (light w' self) = green_duration (light w self) /\
    red_duration (light w' self) = red_duration (light w self) /\
    yellow_duration (light w' self) = yellow_duration (light w self) /\
    state (light w' self) = default (state (light w self)) (last_target ops)).
Proof.
  revert w. induction ops as [|op ops IH]; intros w.
  - apply returns_ret. by repeat split.
  - cbn [run_ops]. apply returns_bind.
    destruct (target op) as [s|] eqn:Hop.
    + eapply returns_eq; [by apply run_op_transition|].
      eapply returns_mono; [apply IH|].
      intros [] w' (Hl & Hn & Hg & Hr & Hy & Hs).
      rewrite light_switched in *. rewrite last_target_cons, Hop.
      split; [|by repeat split].
      intros l Hne. rewrite Hl by done. by apply light_switched_ne.
    + destruct op; try discriminate. cbn [run_op].
      eapply returns_eq; [apply update_vehicle_count_run|].
      eapply returns_mono; [apply IH|].
      intros [] w' (Hl & Hn & Hg & Hr & Hy & Hs).
      rewrite light_updated_eq in *. rewrite last_target_cons.
      split; [|by repeat split].
      intros l Hne. rewrite Hl by done. by apply light_updated_ne.
Qed.

(** ** More on [manage_traffic] *)

(** [recorded dw dw']: between [dw] and [dw'] the log has gained one record
    for each evaluation the console has gained, in the same order; the
    record carries the state decided by the count, and a [vehicle_count]
    of at least 1. *)
Definition recorded (dw dw' : gmap string Z * World) : Prop :=
  exists entries evs,
    log_of dw'.2 = log_of dw.2 ++ entries /\
    evaluations dw'.2 = evaluations dw.2 ++ evs /\
    Forall2 (fun e ev => log_state e = policy_state ev.2 /\
                         (1 <= log_vehicle_count e)%nat) entries evs.

Lemma recorded_refl dw : recorded dw dw.
Proof. exists [], []. rewrite !app_nil_r. by repeat split. Qed.

Lemma recorded_trans a b c : recorded a b -> recorded b c -> recorded a c.
Proof.
  intros (e1 & v1 & Hl1 & Hc1 & H1) (e2 & v2 & Hl2 & Hc2 & H2).
  exists (e1 ++ e2), (v1 ++ v2). split; [|split].
  - by rewrite Hl2, Hl1, app_assoc.
  - by rewrite Hc2, Hc1, app_assoc.
  - by apply Forall2_app.
Qed.

Lemma recorded_visit nm l data w :
  recorded (data, w) (<[nm := drawn w]> data, visited nm l w).
Proof.
  eexists [_], [_]. cbn [fst snd].
  split; [apply log_of_visited_exact|].
  split; [apply evaluations_visited|].
  constructor; [|constructor]. cbn. split; [done|lia].
Qed.

Lemma recorded_print data w line :
  evaluation line = None ->
  recorded (data, w) (data, set_console (console w ++ [line]) w).
Proof.
  intros H. exists [], []. cbn [fst snd].
  rewrite evaluations_print by done. rewrite !app_nil_r.
  by repeat split.
Qed.

Lemma swept_recorded items : forall dw, recorded dw (swept items dw).
Proof.
  induction items as [|[nm l] items IH]; intros [d w0]; [apply recorded_refl|].
  cbn [swept]. eapply recorded_trans; [apply recorded_visit|apply IH].
Qed.

Lemma iterated_recorded self n : forall ic dw,
  recorded dw (iterated n self ic dw).
Proof.
  induction n as [|n IH]; intros ic dw; [apply recorded_refl|].
  cbn [iterated]. eapply recorded_trans; [|apply IH].
  eapply recorded_trans; [apply (swept_recorded (intersections self))|].
  destruct (swept (intersections self) dw) as [d1 w1].
  by apply recorded_print.
Qed.

(** X3.  [manage_traffic], on any controller and from any world, logs
    exactly one record per decision evaluation, in the order of the
    evaluations; each record carries the state decided by the count
    evaluated, and its [vehicle_count] is at least 1 (the count is recorded
    before the light is switched). *)
Theorem one_record_per_evaluation (self : TrafficController) (w : World) :
  returns (manage_traffic self) w (fun _ w' =>
    exists entries evs,
      log_of w' = log_of w ++ entries /\
      evaluations w' = evaluations w ++ evs /\
      length entries = length evs /\
      Forall2 (fun e ev => log_state e = policy_state ev.2 /\
                           (1 <= log_vehicle_count e)%nat) entries evs).
Proof.
  eapply returns_eq; [apply manage_traffic_run|].
  destruct (iterated_recorded self (Z.to_nat (iterations self)) 0 (∅, w))
    as (entries & evs & Hl & Hc & HF).
  exists entries, evs. cbn [fst snd] in *.
  split; [done|]. split; [done|].
  split; [by eapply Forall2_length|done].
Qed.

(** ** Histories *)

(** X4.  For a controller as [__init__] builds it, run from any world, the
    observation history of each light grows by exactly the counts evaluated
    for its intersection, in order: 10 of them in a run; and the mapping
    returned holds the last of them.  So [get_vehicle_count] grows by 10 per
    run, whatever the traffic. *)
Theorem histories_follow_evaluations (w : World) :
  returns TrafficController_init w (fun self _ =>
    forall w3,
      returns (manage_traffic self) w3 (fun intersection_data w' =>
        exists evs,
          evaluations w' = evaluations w3 ++ evs /\
          forall nm l, (nm, l) ∈ intersections self ->
            vehicle_count_history (light w' l) =
              vehicle_count_history (light w3 l) ++
                (filter (fun ev => ev.1 = nm) evs).*2 /\
            length (filter (fun ev => ev.1 = nm) evs).*2 = 10%nat /\
            intersection_data !! nm =
              last (filter (fun ev => ev.1 = nm) evs).*2)).
Proof.
  eapply returns_eq; [apply TrafficController_init_run|].
  intros w3.
  set (self := mkTrafficController _ 10 ∅).
  eapply returns_mono;
    [apply returns_and;
       [apply (manage_traffic_traced self)
       |apply (manage_traffic_followed self), init_items_one_to_one]|].
  intros data w' [(evs & Hc & Hn & _ & Hd) (evs' & Hc' & Hh)].
  cbn [fst snd] in *.
  assert (evs' = evs) as -> by (rewrite Hc in Hc'; by apply app_inv_head in Hc').
  exists evs. split; [done|]. intros nm l Hin.
  split; [by apply Hh|]. split.
  - rewrite length_fmap.
    change (length (filter (fun ev => ev.1 = nm) evs))
      with (evaluations_of nm evs).
    rewrite evaluations_of_names, Hn. revert Hin. unfold self.
    cbn [intersections iterations].
    rewrite !elem_of_cons, elem_of_nil.
    intros [[= -> _]|[[= -> _]|[[= -> _]|[]]]]; by vm_compute.
  - rewrite Hd, lookup_empty, <- last_eval_filter.
    by destruct (last_eval nm evs).
Qed.

(** ** The time a run takes *)

(** X5.  The lights of a new controller have the durations of the
    constants.  Run from any world in which they still have them,
    [manage_traffic] keeps them, and it advances the clock by the holds of
    its evaluations: [RED_LIGHT_DURATION] for a count of 0 and
    [YELLOW_LIGHT_DURATION] for any other; over the 30 evaluations of a run
    that is between 150 and 300 seconds. *)
Theorem run_takes_150_to_300_seconds (w : World) :
  returns TrafficController_init w (fun self w0 =>
    default_durations (intersections self) w0 /\
    forall w3, default_durations (intersections self) w3 ->
      returns (manage_traffic self) w3 (fun _ w' =>
        default_durations (intersections self) w' /\
        exists evs,
          evaluations w' = evaluations w3 ++ evs /\
          clock w' = clock w3 + total_hold evs /\
          150 <= clock w' - clock w3 <= 300)).
Proof.
  eapply returns_eq; [apply TrafficController_init_run|].
  set (self := mkTrafficController _ 10 ∅). split.
  - intros nm l. unfold self. cbn [intersections].
    rewrite !elem_of_cons, !elem_of_nil. unfold light.
    cbn [heap set_heap set_next_loc].
    intros [[= -> ->]|[[= -> ->]|[[= -> ->]|[]]]];
      rewrite ?lookup_total_insert_ne by lia;
      by rewrite lookup_total_insert_eq.
  - intros w3 Hd.
    eapply returns_mono;
      [apply returns_and;
         [apply (manage_traffic_traced self)|apply (manage_traffic_timed self)]|].
    intros data w' [(evs & Hc & Hn & _ & _) Ht]. cbn [fst snd] in *.
    destruct (Ht Hd) as (Hd' & evs' & Hc' & Hclock). cbn [fst snd] in *.
    assert (evs' = evs) as ->
      by (rewrite Hc in Hc'; by apply app_inv_head in Hc').
    split; [exact Hd'|]. exists evs. split; [done|]. split; [done|].
    assert (Hlen : length evs = 30%nat).
    { rewrite <- (length_fmap fst), Hn, length_concat_replicate.
      reflexivity. }
    pose proof (total_hold_bounds evs) as Hb. rewrite Hlen in Hb. lia.
Qed.

(** ** The random source *)

(** The count [randint(0, MAX_VEHICLES)] makes of the entropy at place
    [k]. *)
Definition drawn_at (w : World) (k : nat) : Z :=
  0 + rand_src w k mod (MAX_VEHICLES - 0 + 1).

(** [consumed dw dw']: the evaluations made between [dw] and [dw'] used the
    random source one draw each, in order, and nothing else used it. *)
Definition consumed (dw dw' : gmap string Z * World) : Prop :=
  exists evs,
    evaluations dw'.2 = evaluations dw.2 ++ evs /\
    rand_src dw'.2 = rand_src dw.2 /\
    rand_pos dw'.2 = (rand_pos dw.2 + length evs)%nat /\
    evs.*2 = drawn_at dw.2 <$> seq (rand_pos dw.2) (length evs).

Lemma consumed_refl dw : consumed dw dw.
Proof.
  exists []. rewrite app_nil_r. cbn. by rewrite Nat.add_0_r.
Qed.

Lemma consumed_trans a b c : consumed a b -> consumed b c -> consumed a c.
Proof.
  intros (e1 & Hc1 & Hs1 & Hp1 & Hv1) (e2 & Hc2 & Hs2 & Hp2 & Hv2).
  exists (e1 ++ e2). split; [by rewrite Hc2, Hc1, app_assoc|].
  split; [congruence|]. rewrite length_app. split; [lia|].
  rewrite fmap_app, seq_app, fmap_app, Hv1, Hv2, Hp1. f_equal.
  unfold drawn_at. by rewrite Hs1.
Qed.

Lemma consumed_visit nm l data w :
  consumed (data, w) (<[nm := drawn w]> data, visited nm l w).
Proof.
  exists [(nm, drawn w)]. cbn [fst snd].
  split; [apply evaluations_visited|].
  split; [reflexivity|]. split; [cbn; lia|reflexivity].
Qed.

Lemma consumed_print data w line :
  evaluation line = None ->
  consumed (data, w) (data, set_console (console w ++ [line]) w).
Proof.
  intros H. exists []. cbn [fst snd]. rewrite evaluations_print by done.
  rewrite app_nil_r. cbn. by rewrite Nat.add_0_r.
Qed.

Lemma swept_consumed items : forall dw, consumed dw (swept items dw).
Proof.
  induction items as [|[nm l] items IH]; intros [d w0]; [apply consumed_refl|].
  cbn [swept]. eapply consumed_trans; [apply consumed_visit|apply IH].
Qed.

Lemma iterated_consumed self n : forall ic dw,
  consumed dw (iterated n self ic dw).
Proof.
  induction n as [|n IH]; intros ic dw; [apply consumed_refl|].
  cbn [iterated]. eapply consumed_trans; [|apply IH].
  eapply consumed_trans; [apply (swept_consumed (intersections self))|].
  destruct (swept (intersections self) dw) as [d1 w1].
  by apply consumed_print.
Qed.

(** X6.  [manage_traffic] uses the shared random source exactly once per
    evaluation: the counts it evaluates are the successive draws from the
    place the source was at, and the source is left that many places
    further, its entropy untouched. *)
Theorem one_draw_per_evaluation (self : TrafficController) (w : World) :
  returns (manage_traffic self) w (fun _ w' =>
    exists evs,
      evaluations w' = evaluations w ++ evs /\
      rand_src w' = rand_src w /\
      rand_pos w' = (rand_pos w + length evs)%nat /\
      evs.*2 = drawn_at w <$> seq (rand_pos w) (length evs)).
Proof.
  eapply returns_eq; [apply manage_traffic_run|].
  exact (iterated_consumed self (Z.to_nat (iterations self)) 0 (∅, w)).
Qed.

(** ** A controller that is given no iteration *)

(** X7.  With [iterations] at 0 or below, the loop of [manage_traffic] is
    never entered: the call returns the empty mapping and leaves the world
    as it is (no draw, no record, no line printed). *)
Theorem no_iteration_no_effect (self : TrafficController) (w : World) :
  iterations self <= 0 -> manage_traffic self w = Ok ∅ w.
Proof.
  intros H. rewrite manage_traffic_run.
  replace (Z.to_nat (iterations self)) with 0%nat by lia. reflexivity.
Qed.

Lemma no_iteration_no_effect_witness :
  manage_traffic
    (mkTrafficController [("Intersection 1", 0%nat)] 0 ∅)
    (initial_world (fun _ => 4))
  = Ok ∅ (initial_world (fun _ => 4)).
Proof. apply no_iteration_no_effect. cbn. lia. Defined.

(** ** More on the receiver *)

Lemma close_client_socket_bound sock w :
  client_socket w = Some sock ->
  close_client_socket w = Ok tt (closed sock w).
Proof. unfold close_client_socket. by intros ->. Qed.

Lemma serve_once_connection_closes self r w :
  exists w',
    serve_once self (Connection r) w = Ok tt w' /\
    client_socket w' = Some (next_conn w) /\
    open_sockets w' = open_sockets w ∖ {[next_conn w]}.
Proof.
  assert (Hset : forall X : gset nat,
            ({[next_conn w]} ∪ X) ∖ {[next_conn w]} = X ∖ {[next_conn w]})
    by set_solver.
  destruct (received_cases r) as [[e He]|[(nm & cnt & Hd)|[loads ->]]].
  - eexists. split; [by apply serve_once_failure|].
    split; [reflexivity|]. cbn. apply Hset.
  - eexists. split; [by eapply serve_once_decodes|].
    match goal with
    | |- context [iterated ?n ?tc 0 (∅, ?w1)] =>
        pose proof (iterated_untouched tc w1) as (_ & _ & Hopen & _ & Hsock)
    end.
    cbn [client_socket open_sockets closed set_open_sockets].
    rewrite Hsock, Hopen. split; [reflexivity|]. cbn. apply Hset.
  - eexists. split; [apply serve_once_empty|].
    split; [reflexivity|]. cbn. apply Hset.
Qed.

Lemma serve_once_bound self a w sock :
  client_socket w = Some sock ->
  exists w',
    serve_once self a w = Ok tt w' /\
    is_Some (client_socket w') /\
    open_sockets w' ⊆ open_sockets w.
Proof.
  intros Hb. destruct a as [| |r].
  - eexists. rewrite serve_once_timeout.
    split; [by apply close_client_socket_bound|].
    split; [cbn; by rewrite Hb|]. cbn. set_solver.
  - eexists. rewrite serve_once_accept_fails.
    split; [by apply close_client_socket_bound|].
    split; [cbn; by rewrite Hb|]. cbn. set_solver.
  - destruct (serve_once_connection_closes self r w) as (w' & Hrun & Hs & Ho).
    exists w'. split; [done|]. split; [by rewrite Hs|].
    rewrite Ho. set_solver.
Qed.

Lemma serve_loop_bound self arrivals : forall w sock,
  client_socket w = Some sock ->
  exists w',
    serve_loop self arrivals w = Ok tt w' /\
    open_sockets w' ⊆ open_sockets w.
Proof.
  induction arrivals as [|a arrivals IH]; intros w sock Hb.
  - by exists w.
  - destruct (serve_once_bound self a w sock Hb) as (w1 & Hrun & [s1 Hb1] & Ho1).
    destruct (IH w1 s1 Hb1) as (w2 & Hrun2 & Ho2).
    exists w2. cbn [serve_loop]. unfold bind. rewrite Hrun.
    split; [done|]. set_solver.
Qed.

Lemma start_server_listening self arrivals w :
  start_server self true arrivals w =
  match serve_loop self arrivals
          (printed Line_listening (opened (set_client_socket None w))) with
  | Ok _ w' => Ok tt (closed (next_conn w) w')
  | Raised e w' => Raised e w'
  | OutOfFuel => OutOfFuel
  end.
Proof. reflexivity. Qed.

(** X8.  A connection that delivers no data (the peer closed without
    sending) is passed over in silence: nothing is printed, not even an
    error, no decision is taken, no light and no file is touched; the
    connection is closed and the loop goes on with the next arrival. *)
Theorem empty_payload_is_ignored (self : Server) (loads : option json)
    (rest : list Arrival) (w : World) :
  exists w',
    serve_once self (Connection (Recv_text "" loads)) w = Ok tt w' /\
    console w' = console w /\
    heap w' = heap w /\
    files w' = files w /\
    rand_pos w' = rand_pos w /\
    (next_conn w ∉ open_sockets w') /\
    (serve_loop self (Connection (Recv_text "" loads) :: rest) w =
     serve_loop self rest w').
Proof.
  eexists. split; [apply serve_once_empty|].
  do 4 (split; [reflexivity|]). split.
  - cbn. set_solver.
  - cbn [serve_loop]. unfold bind. by rewrite serve_once_empty.
Qed.

Lemma start_server_connection_first self r rest w :
  exists w',
    start_server self true (Connection r :: rest) w = Ok tt w' /\
    (next_conn w ∉ open_sockets w') /\
    (open_sockets w' ⊆ open_sockets w).
Proof.
  rewrite start_server_listening.
  set (w1 := printed Line_listening (opened (set_client_socket None w))).
  destruct (serve_once_connection_closes self r w1) as (w2 & Hrun & Hs & Ho).
  destruct (serve_loop_bound self rest w2 _ Hs) as (w3 & Hrun3 & Ho3).
  cbn [serve_loop]. unfold bind. rewrite Hrun, Hrun3.
  eexists. split; [reflexivity|].
  cbn [closed open_sockets set_open_sockets].
  assert (open_sockets w1 = {[next_conn w]} ∪ open_sockets w) as Ho1
    by reflexivity.
  set_solver.
Qed.

(** X9.  When the first thing the receiver meets is a connection (or when
    it meets nothing at all), [start_server] returns normally whatever
    comes after (timeouts, failed accepts, records that do not decode), and
    every socket it created, the listening one included, is closed when it
    returns. *)
Theorem receiver_survives_after_a_connection (self : Server) (w : World) :
  (exists w',
     start_server self true [] w = Ok tt w' /\
     (next_conn w ∉ open_sockets w') /\
     (open_sockets w' ⊆ open_sockets w)) /\
  (forall r rest,
     exists w',
       start_server self true (Connection r :: rest) w = Ok tt w' /\
       (next_conn w ∉ open_sockets w') /\
       (open_sockets w' ⊆ open_sockets w)).
Proof.
  split.
  - eexists. split; [reflexivity|]. cbn. set_solver.
  - intros r rest. apply start_server_connection_first.
Qed.

(** X10.  No error of the network or of decoding ever leaves
    [start_server]: the only exception it can end with is the
    [UnboundLocalError] of its [finally] block, and that only when [bind]
    succeeded and the very first [accept] did not return a connection. *)
Theorem only_unbound_local_escapes (self : Server) (bind_ok : bool)
    (arrivals : list Arrival) (w w' : World) (e : exn) :
  start_server self bind_ok arrivals w = Raised e w' ->
  e = UnboundLocalError "client_socket" /\
  bind_ok = true /\
  exists rest,
    arrivals = Accept_timeout :: rest \/ arrivals = Accept_fails :: rest.
Proof.
  destruct bind_ok; [|by rewrite start_server_bind_fails].
  destruct arrivals as [|[| |r] rest].
  - discriminate.
  - rewrite start_server_first_timeout. intros [= <- _]. eauto.
  - intros H. assert (e = UnboundLocalError "client_socket") by
      (revert H; by intros [= <- _]). eauto.
  - destruct (start_server_connection_first self r rest w) as (w2 & Hrun & _).
    by rewrite Hrun.
Qed.

Lemma only_unbound_local_escapes_witness :
  UnboundLocalError "client_socket" = UnboundLocalError "client_socket" /\
  true = true /\
  exists rest,
    [Accept_fails; Accept_timeout] = Accept_timeout :: rest \/
    [Accept_fails; Accept_timeout] = Accept_fails :: rest.
Proof.
  apply (only_unbound_local_escapes
           (mkServer (mkTrafficController [] 10 ∅)) true
           [Accept_fails; Accept_timeout] (initial_world (fun _ => 0))
           (printed (Line_request_error OSError)
              (printed Line_listening
                 (opened (set_client_socket None (initial_world (fun _ => 0))))))).
  reflexivity.
Defined.

(** ** What the receiver does not look at *)

Lemma pairs_eq {A B} (l1 l2 : list (A * B)) :
  l1.*1 = l2.*1 -> l1.*2 = l2.*2 -> l1 = l2.
Proof.
  revert l2. induction l1 as [|[a b] l1 IH]; intros [|[a' b'] l2]; cbn;
    try done.
  intros [= -> H1] [= -> H2]. f_equal. by apply IH.
Qed.

Lemma iterated_evaluations_agree self n w1 w2 :
  agree w1 w2 ->
  evaluations w1 = evaluations w2 ->
  evaluations (iterated n self 0 (∅, w1)).2 =
  evaluations (iterated n self 0 (∅, w2)).2.
Proof.
  intros (_ & _ & _ & _ & Hs & Hp) He.
  destruct (iterated_traced self n 0 (∅, w1)) as (e1 & Hc1 & Hn1 & _ & _).
  destruct (iterated_traced self n 0 (∅, w2)) as (e2 & Hc2 & Hn2 & _ & _).
  destruct (iterated_consumed self n 0 (∅, w1)) as (e1' & Hc1' & _ & _ & Hv1).
  destruct (iterated_consumed self n 0 (∅, w2)) as (e2' & Hc2' & _ & _ & Hv2).
  cbn [fst snd] in *.
  assert (e1' = e1) as ->
    by (rewrite Hc1 in Hc1'; by apply app_inv_head in Hc1').
  assert (e2' = e2) as ->
    by (rewrite Hc2 in Hc2'; by apply app_inv_head in Hc2').
  rewrite Hc1, Hc2, He. f_equal. apply pairs_eq; [congruence|].
  rewrite Hv1, Hv2.
  assert (Hlen : length e1 = length e2)
    by (rewrite <- (length_fmap fst e1), <- (length_fmap fst e2); congruence).
  rewrite Hlen, Hp. unfold drawn_at. by rewrite Hs.
Qed.

(** X11.  The receiver does not look at the record it has decoded: two
    connections whose records decode, whatever intersection and count they
    name, leave the same lights, the same log, the same clock and the same
    random source behind, and trigger the same evaluations. *)
Theorem record_content_is_ignored (self : Server) (w : World)
    (r1 r2 : Received) (nm1 cnt1 nm2 cnt2 : json) :
  decodes r1 nm1 cnt1 -> decodes r2 nm2 cnt2 ->
  exists w1 w2,
    serve_once self (Connection r1) w = Ok tt w1 /\
    serve_once self (Connection r2) w = Ok tt w2 /\
    agree w1 w2 /\
    evaluations w1 = evaluations w2.
Proof.
  intros H1 H2. eexists _, _.
  split; [by eapply serve_once_decodes|].
  split; [by eapply serve_once_decodes|].
  set (a1 := printed (Line_received nm1 cnt1) (accepted w)).
  set (a2 := printed (Line_received nm2 cnt2) (accepted w)).
  assert (Hag : agree a1 a2) by by repeat split.
  assert (Hev : evaluations a1 = evaluations a2).
  { unfold a1, a2, printed. by rewrite !evaluations_print. }
  split.
  - destruct (iterated_agree (traffic_controller self)
                (Z.to_nat (iterations (traffic_controller self))) 0 ∅ a1 a2 Hag)
      as [_ (? & ? & ? & ? & ? & ?)].
    by repeat split.
  - change (evaluations (closed ?c ?w0)) with (evaluations w0).
    by apply iterated_evaluations_agree.
Qed.

Lemma record_content_is_ignored_witness :
  exists w1 w2,
    serve_once (mkServer (mkTrafficController [("Intersection 1", 0%nat)] 10 ∅))
      (Connection (telemetry "Intersection 1" 0))
      (initial_world (fun _ => 2)) = Ok tt w1 /\
    serve_once (mkServer (mkTrafficController [("Intersection 1", 0%nat)] 10 ∅))
      (Connection (telemetry "Intersection 3" 5))
      (initial_world (fun _ => 2)) = Ok tt w2 /\
    agree w1 w2 /\
    evaluations w1 = evaluations w2.
Proof.
  apply (record_content_is_ignored _ _ _ _
           (JStr "Intersection 1") (JNum 0) (JStr "Intersection 3") (JNum 5)).
  - unfold decodes, telemetry. eexists _, _. repeat split; done.
  - unfold decodes, telemetry. eexists _, _. repeat split; done.
Defined.

(** ** One run per record *)

Lemma serve_loop_decoded self rs : forall w,
  Forall (fun r => exists nm cnt, decodes r nm cnt) rs ->
  returns (serve_loop self (Connection <$> rs)) w (fun _ w' =>
    length (evaluations w') =
    (length (evaluations w) +
     length rs * (Z.to_nat (iterations (traffic_controller self)) *
                  length (intersections (traffic_controller self))))%nat).
Proof.
  induction rs as [|r rs IH]; intros w Hrs.
  - apply returns_ret. cbn. lia.
  - apply Forall_cons in Hrs as [(nm & cnt & Hd) Hrs].
    cbn [fmap list_fmap serve_loop]. apply returns_bind.
    eapply returns_mono; [eapply serve_once_decodes_trace; exact Hd|].
    intros [] w1 [(evs & Hc & Hn) _].
    eapply returns_mono; [by apply IH|].
    intros [] w2 Hlen. rewrite Hlen, Hc, length_app.
    rewrite <- (length_fmap fst evs), Hn, length_concat_replicate, length_fmap.
    cbn [length]. lia.
Qed.

(** X12.  Every record that decodes costs a whole run of
    [manage_traffic]: a receiver that is sent [k] such records in a row
    returns after [k] times [iterations] rounds over all its intersections
    (30 evaluations per record for the default controller). *)
Theorem every_record_costs_a_run (self : Server) (rs : list Received)
    (w : World) :
  Forall (fun r => exists nm cnt, decodes r nm cnt) rs ->
  returns (start_server self true (Connection <$> rs)) w (fun _ w' =>
    length (evaluations w') =
    (length (evaluations w) +
     length rs * (Z.to_nat (iterations (traffic_controller self)) *
                  length (intersections (traffic_controller self))))%nat).
Proof.
  intros Hrs. unfold returns. rewrite start_server_listening.
  pose proof (serve_loop_decoded self rs
                (printed Line_listening (opened (set_client_socket None w)))
                Hrs) as H.
  unfold returns in H.
  destruct (serve_loop self (Connection <$> rs) _) as [[] w'| |]; try done.
  change (evaluations (closed ?c ?w0)) with (evaluations w0).
  rewrite H. unfold printed. by rewrite evaluations_print.
Qed.

Lemma every_record_costs_a_run_witness :
  returns
    (start_server
       (mkServer (mkTrafficController
          [("Intersection 1", 0%nat); ("Intersection 2", 1%nat);
           ("Intersection 3", 2%nat)] 10 ∅))
       true
       (Connection <$> [telemetry "Intersection 1" 3;
                        telemetry "Intersection 2" 0]))
    (initial_world (fun n => Z.of_nat n))
    (fun _ w' => length (evaluations w') = 60%nat).
Proof.
  apply (every_record_costs_a_run
           (mkServer (mkTrafficController
              [("Intersection 1", 0%nat); ("Intersection 2", 1%nat);
               ("Intersection 3", 2%nat)] 10 ∅))
           [telemetry "Intersection 1" 3; telemetry "Intersection 2" 0]
           (initial_world (fun n => Z.of_nat n))).
  repeat constructor; unfold decodes, telemetry; eexists _, _, _, _;
    repeat split; done.
Defined.

(** ** More on the producer *)

(** The sends that fail in one turn, and over a script. *)
Definition failed_send (net : SendResult) : nat :=
  match net with
  | Delivered => 0
  | _ => 1
  end.

Definition failed_sends
    (script : list (SendResult * SendResult * SendResult)) : nat :=
  foldr (fun net acc =>
           (failed_send net.1.1 + failed_send net.1.2 + failed_send net.2 +
            acc)%nat) 0%nat script.

(** [sent_like w w']: [w'] is [w] but for error lines printed and sockets
    created and closed again. *)
Definition sent_like (k : nat) (w w' : World) : Prop :=
  heap w' = heap w /\
  next_loc w' = next_loc w /\
  files w' = files w /\
  clock w' = clock w /\
  rand_src w' = rand_src w /\
  rand_pos w' = rand_pos w /\
  client_socket w' = client_socket w /\
  open_sockets w' ⊆ open_sockets w /\
  console w' = console w ++ replicate k (Line_send_error OSError).

Lemma sent_like_sent net w : sent_like (failed_send net) w (sent net w).
Proof.
  unfold sent_like. destruct net; cbn; rewrite ?app_nil_r;
    repeat split; set_solver.
Qed.

Lemma sent_like_trans k1 k2 a b c :
  sent_like k1 a b -> sent_like k2 b c -> sent_like (k1 + k2) a c.
Proof.
  intros (? & ? & ? & ? & ? & ? & ? & Ho1 & Hc1)
         (? & ? & ? & ? & ? & ? & ? & Ho2 & Hc2).
  repeat split; try congruence; [set_solver|].
  by rewrite Hc2, Hc1, replicate_add, app_assoc.
Qed.

Lemma sensor_cycle_facts (self : TrafficSystem)
    (net : SendResult * SendResult * SendResult) (w : World) :
  returns (sensor_cycle self net) w (fun self' w' =>
    [vehicle_count (sensor_1 self'); vehicle_count (sensor_2 self');
     vehicle_count (sensor_3 self')] = drawn_at w <$> seq (rand_pos w) 3 /\
    vehicle_counts (network_traffic self') =
      vehicle_counts (network_traffic self) ++
        (drawn_at w <$> seq (rand_pos w) 3) /\
    timestamps (network_traffic self') =
      timestamps (network_traffic self) ++ [clock w] /\
    intersection_name (sensor_1 self') = intersection_name (sensor_1 self) /\
    intersection_name (sensor_2 self') = intersection_name (sensor_2 self) /\
    intersection_name (sensor_3 self') = intersection_name (sensor_3 self) /\
    controller self' = controller self /\
    sent_like (failed_send net.1.1 + failed_send net.1.2 + failed_send net.2)
      (set_clock (clock w + 5) (set_rand_pos (3 + rand_pos w) w)) w').
Proof.
  destruct net as [[net_1 net_2] net_3].
  unfold returns, sensor_cycle, bind.
  rewrite !generate_sensor_data_run. cbn [datetime_now].
  rewrite !send_data_to_server_run. cbn [sleep ret fst snd].
  cbn [sensor_1 sensor_2 sensor_3 vehicle_count intersection_name controller
       network_traffic vehicle_counts timestamps data_vehicle_count].
  split; [reflexivity|]. split; [by rewrite <- !app_assoc|].
  do 5 (split; [reflexivity|]).
  set (w0 := set_rand_pos (S (rand_pos (set_rand_pos (S (rand_pos
               (set_rand_pos (S (rand_pos w)) w))) _))) _).
  pose proof (sent_like_trans _ _ _ _ _
                (sent_like_trans _ _ _ _ _ (sent_like_sent net_1 w0)
                   (sent_like_sent net_2 _))
                (sent_like_sent net_3 _)) as H.
  destruct H as (Hh & Hl & Hf & Hc & Hs & Hp & Hcs & Ho & Hco).
  unfold sent_like. cbn [heap next_loc files clock rand_src rand_pos
    client_socket open_sockets console set_clock set_rand_pos] in *.
  rewrite Hh, Hl, Hf, Hc, Hs, Hp, Hcs, Hco. by repeat split.
Qed.


(** X13.  One turn of [start_sensors], whatever the network does with the
    three sends: the three counts are the next three draws of the random
    source, in the order of the sensors; each is stored in its sensor and
    all three are appended to [vehicle_counts]; one timestamp, the time at
    the start of the turn, is appended to [timestamps]; the names of the
    sensors and the controller are kept.  The turn takes 5 seconds, prints
    one error line per failed send and nothing else, leaves no socket open,
    and touches no light and no file. *)
Theorem one_turn_of_the_producer (self : TrafficSystem)
    (net : SendResult * SendResult * SendResult) (w : World) :
  returns (sensor_cycle self net) w (fun self' w' =>
    [vehicle_count (sensor_1 self'); vehicle_count (sensor_2 self');
     vehicle_count (sensor_3 self')] = drawn_at w <$> seq (rand_pos w) 3 /\
    vehicle_counts (network_traffic self') =
      vehicle_counts (network_traffic self) ++
        (drawn_at w <$> seq (rand_pos w) 3) /\
    timestamps (network_traffic self') =
      timestamps (network_traffic self) ++ [clock w] /\
    intersection_name (sensor_1 self') = intersection_name (sensor_1 self) /\
    intersection_name (sensor_2 self') = intersection_name (sensor_2 self) /\
    intersection_name (sensor_3 self') = intersection_name (sensor_3 self) /\
    controller self' = controller self /\
    sent_like (failed_send net.1.1 + failed_send net.1.2 + failed_send net.2)
      (set_clock (clock w + 5) (set_rand_pos (3 + rand_pos w) w)) w').
Proof. apply sensor_cycle_facts. Qed.

(** [produced n w self self']: what [n] turns of the producer, started in
    [w], make of the system [self]. *)
Definition produced (n : nat) (w : World) (self self' : TrafficSystem) : Prop :=
  vehicle_counts (network_traffic self') =
    vehicle_counts (network_traffic self) ++
      (drawn_at w <$> seq (rand_pos w) (3 * n)) /\
  length (timestamps (network_traffic self')) =
    (length (timestamps (network_traffic self)) + n)%nat /\
  controller self' = controller self.

Lemma start_sensors_produced script : forall self w,
  returns (start_sensors self script) w (fun self' w' =>
    produced (length script) w self self' /\
    sent_like (failed_sends script)
      (set_clock (clock w + 5 * Z.of_nat (length script))
         (set_rand_pos (3 * length script + rand_pos w) w)) w').
Proof.
  induction script as [|net script IH]; intros self w.
  - apply returns_ret. unfold produced, sent_like. cbn.
    rewrite !app_nil_r, Z.add_0_r, Nat.add_0_r. by repeat split.
  - cbn [start_sensors]. apply returns_bind.
    eapply returns_mono; [apply sensor_cycle_facts|].
    intros self1 w1 (_ & Hv1 & Ht1 & _ & _ & _ & Hk1 & Hlike1).
    eapply returns_mono; [apply IH|].
    intros self2 w2 [(Hv2 & Ht2 & Hk2) Hlike2].
    destruct Hlike1 as (Hh & Hl & Hf & Hc & Hs & Hp & Hcs & Ho & Hco).
    cbn [heap next_loc files clock rand_src rand_pos client_socket
         open_sockets console set_clock set_rand_pos] in *.
    split.
    + unfold produced. split; [|split; [|congruence]].
      * rewrite Hv2, Hv1, <- app_assoc. f_equal.
        replace (3 * length (net :: script))%nat
          with (3 + 3 * length script)%nat by (cbn [length]; lia).
        rewrite seq_app, fmap_app. f_equal. rewrite Hp.
        replace (rand_pos w + 3)%nat with (3 + rand_pos w)%nat by lia.
        unfold drawn_at. by rewrite Hs.
      * rewrite Ht2, Ht1, length_app. cbn [length]. lia.
    + cbn [failed_sends foldr length].
      destruct Hlike2 as (Hh2 & Hl2 & Hf2 & Hc2 & Hs2 & Hp2 & Hcs2 & Ho2 & Hco2).
      cbn [heap next_loc files clock rand_src rand_pos client_socket
           open_sockets console set_clock set_rand_pos] in *.
      unfold sent_like.
      cbn [heap next_loc files clock rand_src rand_pos client_socket
           open_sockets console set_clock set_rand_pos].
      repeat split; try congruence.
      * lia.
      * lia.
      * set_solver.
      * change (foldr _ 0%nat script) with (failed_sends script).
        by rewrite Hco2, Hco, <- app_assoc, <- replicate_add.
Qed.

(** X14.  [start_sensors] never fails, whatever the network does with its
    sends.  After [n] turns the counts recorded are the next [3 * n] draws
    of the random source, in order, each between 0 and [MAX_VEHICLES]; [n]
    timestamps were recorded; the clock has advanced by [5 * n] seconds; one
    error line was printed for each send that failed, and nothing else; no
    socket is left open, and no light and no file was touched. *)
Theorem producer_never_fails (self : TrafficSystem)
    (script : list (SendResult * SendResult * SendResult)) (w : World) :
  returns (start_sensors self script) w (fun self' w' =>
    vehicle_counts (network_traffic self') =
      vehicle_counts (network_traffic self) ++
        (drawn_at w <$> seq (rand_pos w) (3 * length script)) /\
    Forall (fun v => 0 <= v <= MAX_VEHICLES)
           (drawn_at w <$> seq (rand_pos w) (3 * length script)) /\
    length (timestamps (network_traffic self')) =
      (length (timestamps (network_traffic self)) + length script)%nat /\
    heap w' = heap w /\
    files w' = files w /\
    clock w' = clock w + 5 * Z.of_nat (length script) /\
    rand_pos w' = (3 * length script + rand_pos w)%nat /\
    (open_sockets w' ⊆ open_sockets w) /\
    console w' =
      console w ++ replicate (failed_sends script) (Line_send_error OSError)).
Proof.
  eapply returns_mono; [apply start_sensors_produced|].
  intros self' w' [(Hv & Ht & _) (Hh & _ & Hf & Hc & _ & Hp & _ & Ho & Hco)].
  cbn [heap files clock rand_pos open_sockets console set_clock set_rand_pos]
    in *.
  split; [done|]. split.
  { apply Forall_fmap, Forall_forall. intros k _. cbn.
    unfold drawn_at, MAX_VEHICLES.
    pose proof (Z.mod_pos_bound (rand_src w k) (5 - 0 + 1)). lia. }
  by repeat split.
Qed.

(** ** The mapping that is charted *)

Lemma fold_states_lookup (items : list (string * loc)) w
    (acc : gmap string LightState) k :
  fold_left
    (fun m (item : string * loc) =>
       <[name (light w item.2) := state (light w item.2)]> m)
    items acc !! k =
  match last (filter (fun o => name o = k)
                     ((fun item : string * loc => light w item.2) <$> items)) with
  | Some o => Some (state o)
  | None => acc !! k
  end.
Proof.
  revert acc. induction items as [|item items IH]; intros acc; [done|].
  cbn [fold_left fmap list_fmap]. rewrite IH, filter_cons.
  destruct (decide (name (light w item.2) = k)) as [Hk|Hk].
  - rewrite last_cons.
    destruct (last (filter _ _)); [done|].
    by rewrite <- Hk, lookup_insert_eq.
  - destruct (last (filter _ _)); [done|].
    by rewrite lookup_insert_ne.
Qed.

(** X15.  The mapping [plot_traffic_light_state] charts is keyed by the
    name each light carries (not by the key it is filed under): for a name,
    it holds the state of the last light of the controller that carries it,
    and it holds nothing for a name that no light carries. *)
Theorem chart_is_keyed_by_light_names (items : list (string * loc))
    (w : World) (k : string) :
  traffic_light_states items w !! k =
  state <$> last (filter (fun o => name o = k)
                         ((fun item : string * loc => light w item.2) <$> items)).
Proof.
  unfold traffic_light_states. rewrite fold_states_lookup, lookup_empty.
  by destruct (last (filter _ _)).
Qed.

(** ** Counts below zero *)

(** X16.  The decision has no case of its own for a negative count: it
    falls to the last branch, and the light is switched to YELLOW and a
    YELLOW record is logged. *)
Theorem negative_count_is_yellow (traffic_light : loc) (v : Z) (w : World) :
  v < 0 ->
  returns (apply_policy traffic_light v) w (fun _ w' =>
    state (light w' traffic_light) = YELLOW /\
    exists e, log_of w' = log_of w ++ [e] /\ log_state e = YELLOW).
Proof.
  intros Hv. eapply returns_eq; [apply apply_policy_run|].
  assert (policy_state v = YELLOW) as ->.
  { unfold policy_state. destruct (Z.gtb_spec v 60); [lia|].
    by destruct (Z.eqb_spec v 0); [lia|]. }
  change (light (set_clock ?t ?w0) traffic_light) with (light w0 traffic_light).
  change (log_of (set_clock ?t ?w0)) with (log_of w0).
  rewrite light_switched, log_of_switched. split; [done|].
  by eexists.
Qed.

Lemma negative_count_is_yellow_witness :
  returns (apply_policy 0%nat (-1)) (initial_world (fun _ => 0)) (fun _ w' =>
    state (light w' 0%nat) = YELLOW /\
    exists e, log_of w' = log_of (initial_world (fun _ => 0)) ++ [e] /\
              log_state e = YELLOW).
Proof. apply negative_count_is_yellow. lia. Defined.

(** ** A record that does not decode *)

(** X17.  A connection whose data cannot be received or decoded costs
    nothing but a line on the console: no light, no file, no draw of the
    random source and no time; the error is printed, the connection is
    closed, and the loop is ready for the next arrival. *)
Theorem undecodable_record_changes_nothing (self : Server) (r : Received)
    (e : exn) (w : World) :
  failure r = Some e ->
  exists w',
    serve_once self (Connection r) w = Ok tt w' /\
    agree w w' /\
    console w' = console w ++ [Line_request_error e] /\
    client_socket w' = Some (next_conn w) /\
    open_sockets w' = open_sockets w ∖ {[next_conn w]}.
Proof.
  intros He. eexists. split; [by apply serve_once_failure|].
  split; [by repeat split|]. split; [reflexivity|]. split; [reflexivity|].
  cbn. set_solver.
Qed.

Lemma undecodable_record_changes_nothing_witness :
  exists w',
    serve_once (mkServer (mkTrafficController [] 10 ∅))
      (Connection (Recv_text "{" None)) (initial_world (fun _ => 1))
      = Ok tt w' /\
    agree (initial_world (fun _ => 1)) w' /\
    console w' =
      console (initial_world (fun _ => 1)) ++
        [Line_request_error JSONDecodeError] /\
    client_socket w' = Some (next_conn (initial_world (fun _ => 1))) /\
    open_sockets w' =
      open_sockets (initial_world (fun _ => 1)) ∖
        {[next_conn (initial_world (fun _ => 1))]}.
Proof. apply undecodable_record_changes_nothing. reflexivity. Defined.

(** ** The order of the records in time *)








